(** * mail-CLI: the semantic search engine of [semantic_search.py]

    A shallow embedding of [SemanticSearchEngine] and of the Python
    primitives it is written with, of the mail parsing and keyword search
    of [imap_client.py] and of the summaries, score categories and
    threshold checks of [cli_app.py] and [web_app.py], followed by the
    properties of text cleaning, embedding construction and ranking.

    Conventions of the embedding.
    - A Python [str] is a list of code points below 256 ([list ascii]);
      the character classes of [re] and [str.strip] are written out on
      that range as CPython's Unicode tables give them.
    - A Python/numpy float is an IEEE 754 binary64 value ([float]); numpy
      computes the embeddings in binary32, whose zeros, infinities, NaN and
      comparisons behave alike.
    - [list.sort] is embedded as CPython runs it: the first run is found
      and the other elements are inserted by binary search, comparing with
      [<] only. On comparable keys (no NaN) that is the stable sort; on a
      key that is NaN every comparison is false, and the list need not
      come out in order.
    - [html.unescape] and the sentence-transformers model are libraries:
      the first is a parameter of the text cleaner, the second a field of
      the engine. Calls of the model are recorded in a call log.

    The embedding comes first (modules [Py], [Re], [Np], [Log],
    [SemanticSearch], [Shape], [Sample], [PyStr], [Imap], [App],
    [Process], [SampleMail]); the properties follow. *)

From Stdlib Require Import Ascii String.
From Stdlib Require Import List ZArith Bool Lia Floats Sorted Permutation.
Import ListNotations.

Set Warnings "-inexact-float".
Set Implicit Arguments.

(** * Python primitives *)

Module Py.

(** ** Text *)

Definition str : Type := list ascii.

(** A string literal of the source. *)
Definition lit (s : string) : str := list_ascii_of_string s.

Coercion lit : string >-> str.

Definition code (c : ascii) : nat := nat_of_ascii c.

Definition between (lo hi : nat) (c : ascii) : bool :=
(lo <=? code c)%nat && (code c <=? hi)%nat.

(** Membership of a character in a literal set. *)
Definition one_of (set : str) (c : ascii) : bool :=
existsb (Ascii.eqb c) set.

(** [str.isspace] of one character, which is also [\s] of [re]:
    TAB LF VT FF CR, FS GS RS US, SPACE, NEL and NBSP. *)
Definition is_space (c : ascii) : bool :=
between 9 13 c || between 28 32 c || (code c =? 133)%nat || (code c =? 160)%nat.

Definition is_upper (c : ascii) : bool := between 65 90 c.
Definition is_lower (c : ascii) : bool := between 97 122 c.
Definition is_alpha (c : ascii) : bool := is_upper c || is_lower c.
Definition is_digit (c : ascii) : bool := between 48 57 c.
Definition is_hex (c : ascii) : bool :=
is_digit c || between 65 70 c || between 97 102 c.

(** [\w] of [re] on a [str] pattern: [str.isalnum] or the underscore.
    Above 127 these are the letters, superscript digits and fractions of
    Latin-1. *)
Definition is_word (c : ascii) : bool :=
is_alpha c || is_digit c || (code c =? 95)%nat
|| (code c =? 170)%nat || between 178 179 c || (code c =? 181)%nat
|| between 185 186 c || between 188 190 c
|| between 192 214 c || between 216 246 c || between 248 255 c.

(** Case folding under [re.IGNORECASE]: below 256 the only characters that
    fold onto the letters a..z are A..Z. *)
Definition lower (c : ascii) : ascii :=
if is_upper c then ascii_of_nat (code c + 32) else c.

Fixpoint drop_while (p : ascii -> bool) (s : str) : str :=
match s with
| [] => []
| c :: s' => if p c then drop_while p s' else s
end.

(** [s.lstrip()] and [s.rstrip()] *)
Definition lstrip (s : str) : str := drop_while is_space s.

Fixpoint rstrip (s : str) : str :=
match s with
| [] => []
| c :: s' =>
    match rstrip s' with
    | [] => if is_space c then [] else [c]
    | r => c :: r
    end
end.

(** [s.strip()] *)
Definition strip (s : str) : str := rstrip (lstrip s).

(** [s.startswith(prefix)] *)
Fixpoint startswith (prefix s : str) : bool :=
match prefix, s with
| [], _ => true
| _ :: _, [] => false
| a :: prefix', b :: s' => Ascii.eqb a b && startswith prefix' s'
end.

(** [s.split(sep)] for a one-character separator: never the empty list. *)
Fixpoint split (sep : ascii) (s : str) : list str :=
match s with
| [] => [[]]
| c :: s' =>
    if Ascii.eqb c sep then [] :: split sep s'
    else match split sep s' with
         | [] => [[c]]
         | w :: ws => (c :: w) :: ws
         end
end.

(** [sep.join(parts)] *)
Fixpoint join (sep : str) (parts : list str) : str :=
match parts with
| [] => []
| [w] => w
| w :: ws => w ++ sep ++ join sep ws
end.

(** [not s] for a string. *)
Definition is_empty (s : str) : bool :=
match s with [] => true | _ :: _ => false end.

(** ** Floats: comparison of numbers that are not NaN *)

Definition not_nan (x : float) : Prop := is_nan x = false.

(** Python's [a >= b] on floats. *)
Definition geb (a b : float) : bool := (b <=? a)%float.

(** A point of a lexicographic order for every IEEE value but NaN. *)
Definition sf_key (x : spec_float) : Z * Z * Z :=
match x with
| S754_zero _ => (0, 0, 0)
| S754_infinity true => (-2, 0, 0)
| S754_infinity false => (2, 0, 0)
| S754_nan => (3, 0, 0)
| S754_finite true m e => (-1, - e, Z.neg m)
| S754_finite false m e => (1, e, Z.pos m)
end%Z.

Definition lex3 (a b : Z * Z * Z) : comparison :=
let '(a1, a2, a3) := a in
let '(b1, b2, b3) := b in
match (a1 ?= b1)%Z with
| Eq => match (a2 ?= b2)%Z with Eq => (a3 ?= b3)%Z | c => c end
| c => c
end.

(** ** Lists: slices and the stable sort *)

Section Lists.
Variable A : Type.

(** [l[:k]]: a negative bound counts from the end. *)
Definition slice_to (k : Z) (l : list A) : list A :=
if (k <? 0)%Z
then firstn (Z.to_nat (Z.of_nat (length l) + k)) l
else firstn (Z.to_nat k) l.

Variable key : A -> float.

(** [key x < key y]: the only comparison that [list.sort] makes. *)
Definition islt (x y : A) : bool := (key x <? key y)%float.

(** The run that goes on after [prev]: while the next element is less
    than the one before it, for a descending run, or is not, for an
    ascending one. *)
Fixpoint run_from (descending : bool) (prev : A) (l : list A) : list A * list A :=
match l with
| [] => ([], [])
| x :: l' =>
    if Bool.eqb (islt x prev) descending
    then let (run, rest) := run_from descending x l' in (x :: run, rest)
    else ([], l)
end.

(** [count_run]: the run at the start of the list, whether it is strictly
    descending, and the elements after it. *)
Definition count_run (l : list A) : list A * bool * list A :=
match l with
| [] => ([], false, [])
| [x] => ([x], false, [])
| x :: y :: l' =>
    let descending := islt y x in
    let (run, rest) := run_from descending y l' in
    (x :: y :: run, descending, rest)
end.

(** The binary search of [binarysort] for the place of [pivot] in
    [a[l:r]]: right of the middle element unless [pivot] is less. *)
Fixpoint bisect (fuel : nat) (pivot : A) (a : list A) (l r : nat) : nat :=
match fuel with
| O => l
| S fuel' =>
    if l <? r
    then
      let p := l + (r - l) / 2 in
      match nth_error a p with
      | Some y => if islt pivot y then bisect fuel' pivot a l p
                  else bisect fuel' pivot a (p + 1) r
      | None => l
      end
    else l
end.

(** One round of [binarysort]: [pivot], the element after the sorted
    part [a], moves to its place. *)
Definition insort (a : list A) (pivot : A) : list A :=
let l := bisect (length a) pivot a 0 (length a) in
firstn l a ++ pivot :: skipn l a.

Definition binarysort (sorted rest : list A) : list A := fold_left insort rest sorted.

(** [l.sort(key=key, reverse=True)] as CPython runs it on a list of fewer
    than 64 elements: the list is reversed, its first run is found (and
    reversed when it descends), the other elements are inserted by binary
    search, and the list is reversed again. A longer list CPython cuts
    into runs of 32 to 64 elements, completed by the same insertion, and
    merges them by a policy that has changed between versions; on
    comparable keys (no NaN) every such sort returns this list, the stable
    sort into descending order, while on keys with NaN the language does
    not fix the result. *)
Definition sort_desc (l : list A) : list A :=
let '(run, descending, rest) := count_run (rev l) in
rev (binarysort (if descending then rev run else run) rest).

(** Descending order of the keys. *)
Definition desc (a b : A) : Prop := (key b <=? key a)%float = true.

(** The keys of a list are comparable numbers. *)
Definition comparable (l : list A) : Prop := Forall (fun x => not_nan (key x)) l.

(** The elements of [l] whose key equals [v], in the order of [l]. *)
Definition with_key (v : float) (l : list A) : list A :=
filter (fun x => (key x =? v)%float) l.
End Lists.

End Py.

(** * The regular expressions of [re] that the cleaner uses *)

Module Re.
Import Py.

(** Pattern syntax: the fragment of [re] that occurs in the source. *)
Inductive re : Type :=
| Eps                          (* the empty pattern *)
| Chr (c : ascii)              (* one literal character *)
| Cls (p : ascii -> bool)      (* one character of a class *)
| Cat (a b : re)               (* ab *)
| Alt (a b : re)               (* a|b, left first *)
| Star (a : re)                (* a*, greedy *)
| Wordb.                       (* \b *)

(** [a+], [a?] and [a{2,}], all greedy. *)
Definition Plus (a : re) : re := Cat a (Star a).
Definition Opt (a : re) : re := Alt a Eps.
Definition AtLeast2 (a : re) : re := Cat a (Plus a).

(** A literal word, and the same under [re.IGNORECASE]. *)
Definition word (w : str) : re := fold_right (fun c r => Cat (Chr c) r) Eps w.
Definition word_i (w : str) : re :=
fold_right (fun c r => Cat (Cls (fun x => Ascii.eqb (lower x) c)) r) Eps w.

Definition is_word_opt (c : option ascii) : bool :=
match c with Some x => is_word x | None => false end.

(** [\b] holds between [prev] and the head of [s] when exactly one of them
    is a word character; the ends of the text count as non-word. *)
Definition at_boundary (prev : option ascii) (s : str) : bool :=
xorb (is_word_opt prev) (is_word_opt (hd_error s)).

(** The loop of a greedy repetition whose body is matched by [step]: one
    more iteration is tried first, then the continuation [k]. An iteration
    that consumed nothing is given up, as [re] does; [n] bounds the number
    of iterations by the length of the text. *)
Fixpoint star_loop
  (step : option ascii -> str -> (option ascii -> str -> option str) -> option str)
  (k : option ascii -> str -> option str)
  (n : nat) (prev : option ascii) (s : str) {struct n} : option str :=
match n with
| O => k prev s
| S n' =>
    match step prev s
            (fun prev' s' =>
               if (length s' <? length s)%nat then star_loop step k n' prev' s' else None)
    with
    | Some rest => Some rest
    | None => k prev s
    end
end.

(** The backtracking matcher, in continuation-passing style: [run r prev s k]
    matches [r] at the head of [s] ([prev] is the character before it) and
    hands what is left to [k]; the first success in [re]'s order of
    preference wins. *)
Fixpoint run (r : re) (prev : option ascii) (s : str)
  (k : option ascii -> str -> option str) {struct r} : option str :=
match r with
| Eps => k prev s
| Chr c =>
    match s with
    | x :: s' => if Ascii.eqb x c then k (Some x) s' else None
    | [] => None
    end
| Cls p =>
    match s with
    | x :: s' => if p x then k (Some x) s' else None
    | [] => None
    end
| Cat a b => run a prev s (fun prev' s' => run b prev' s' k)
| Alt a b =>
    match run a prev s k with
    | Some rest => Some rest
    | None => run b prev s k
    end
| Star a => star_loop (run a) k (length s) prev s
| Wordb => if at_boundary prev s then k prev s else None
end.

(** [pattern.match] at one position: the number of characters matched. *)
Definition match_at (r : re) (prev : option ascii) (s : str) : option nat :=
match run r prev s (fun _ rest => Some rest) with
| Some rest => Some (length s - length rest)
| None => None
end.

(** [re.search(r, s) is not None], scanning from a position whose
    predecessor is [prev]. *)
Fixpoint search (r : re) (prev : option ascii) (s : str) : bool :=
match match_at r prev s with
| Some _ => true
| None =>
    match s with
    | [] => false
    | c :: s' => search r (Some c) s'
    end
end.

(** [re.sub(r, repl, s)]: the scan moves one character at a time; [skip]
    counts the characters of the current match that are still to be
    dropped. An empty match inserts [repl] and keeps the character. *)
Fixpoint sub_go (r : re) (repl : str) (skip : nat) (prev : option ascii) (s : str) : str :=
match s with
| [] =>
    match skip, match_at r prev [] with
    | O, Some _ => repl
    | _, _ => []
    end
| c :: s' =>
    match skip with
    | S n => sub_go r repl n (Some c) s'
    | O =>
        match match_at r prev s with
        | Some (S n) => repl ++ sub_go r repl n (Some c) s'
        | Some O => repl ++ c :: sub_go r repl 0 (Some c) s'
        | None => c :: sub_go r repl 0 (Some c) s'
        end
    end
end.

Definition sub (r : re) (repl : str) (s : str) : str := sub_go r repl 0 None s.

(** A character that every match of the pattern contains. *)
Fixpoint must (c : ascii) (r : re) : bool :=
match r with
| Chr x => Ascii.eqb x c
| Cat a b => must c a || must c b
| Alt a b => must c a && must c b
| _ => false
end.

End Re.

(** * numpy on one-dimensional arrays *)

Module Np.

Definition ndarray : Type := list float.

(** [np.linalg.norm(v)] *)
Definition norm (v : ndarray) : float :=
PrimFloat.sqrt (fold_left (fun acc x => acc + x * x) v 0)%float.

(** [v / n] for a scalar [n]: element-wise, and division by zero yields an
    infinity or NaN with a warning, never an exception. *)
Definition div (v : ndarray) (n : float) : ndarray :=
map (fun x => x / n)%float v.

(** [np.dot(u, v)] for two vectors of one dimension. *)
Definition dot (u v : ndarray) : float :=
fold_left (fun acc xy => acc + fst xy * snd xy)%float (combine u v) 0%float.

(** [v / np.linalg.norm(v)] *)
Definition unit_vector (v : ndarray) : ndarray := div v (norm v).

(** Neither finite nor zero: an infinity or NaN. *)
Definition sf_non_finite (x : spec_float) : Prop :=
x = S754_nan \/ exists s, x = S754_infinity s.

Definition non_finite (x : float) : Prop := sf_non_finite (Prim2SF x).

End Np.

(** * The call log of the embedding model *)

Module Log.
Import Py.

(** A computation that may call [model.encode]: it maps the log of the
    texts encoded so far to a result and the extended log. *)
Definition M (A : Type) : Type := list str -> A * list str.

Definition ret {A : Type} (x : A) : M A := fun log => (x, log).

Definition bind {A B : Type} (m : M A) (f : A -> M B) : M B :=
fun log => let (x, log') := m log in f x log'.

(** A list comprehension whose body is such a computation. *)
Fixpoint for_each {A B : Type} (f : A -> M B) (l : list A) : M (list B) :=
match l with
| [] => ret []
| x :: l' => bind (f x) (fun y => bind (for_each f l') (fun ys => ret (y :: ys)))
end.

End Log.

Notation "x <- m ;; k" := (Log.bind m (fun x => k))
  (at level 61, m at next level, right associativity).

(** * [semantic_search.py] *)

Module SemanticSearch.
Import Py Re Log.

Local Open Scope string_scope.
Local Open Scope list_scope.

(** ** The patterns of [clean_email_body], in source order *)

(** [<[^>]+>] *)
Definition tag_re : re :=
Cat (Chr "<") (Cat (Plus (Cls (fun c => negb (Ascii.eqb c ">")))) (Chr ">")).

(** [http[s]?://(?:[a-zA-Z]|[0-9]|[$-_@.&+]|[!*\(\),]|(?:%[0-9a-fA-F][0-9a-fA-F]))+];
    [$-_] is the range of code points 36 to 95. *)
Definition url_re : re :=
Cat (word "http")
 (Cat (Opt (Cls (one_of "s")))
  (Cat (word "://")
   (Plus (Alt (Cls is_alpha)
         (Alt (Cls is_digit)
         (Alt (Cls (fun c => between 36 95 c || one_of "@.&+" c))
         (Alt (Cls (one_of "!*(),"))
              (Cat (Chr "%") (Cat (Cls is_hex) (Cls is_hex)))))))))).

(** [\b[A-Za-z0-9._%+-]+@[A-Za-z0-9.-]+\.[A-Z|a-z]{2,}\b] *)
Definition email_re : re :=
Cat Wordb
 (Cat (Plus (Cls (fun c => is_alpha c || is_digit c || one_of "._%+-" c)))
  (Cat (Chr "@")
   (Cat (Plus (Cls (fun c => is_alpha c || is_digit c || one_of ".-" c)))
    (Cat (Chr ".")
     (Cat (AtLeast2 (Cls (fun c => is_alpha c || one_of "|" c)))
      Wordb))))).

(** [\s+] *)
Definition ws_re : re := Plus (Cls is_space).

(** [.] without [re.DOTALL]: any character but the newline. *)
Definition dot_re : re := Cls (fun c => negb (code c =? 10)%nat).

(** [(unsubscribe|privacy policy|terms of service|\bsent from\b|\bbest regards\b|\bsincerely\b).*]
    under [re.IGNORECASE] *)
Definition footer_re : re :=
Cat (Alt (word_i "unsubscribe")
    (Alt (word_i "privacy policy")
    (Alt (word_i "terms of service")
    (Alt (Cat Wordb (Cat (word_i "sent from") Wordb))
    (Alt (Cat Wordb (Cat (word_i "best regards") Wordb))
         (Cat Wordb (Cat (word_i "sincerely") Wordb)))))))
    (Star dot_re).

(** The characters that the last pattern leaves alone: word characters,
    whitespace, and . , ! ? ; : - ' ( ) with the double quote (code 34). *)
Definition kept (c : ascii) : bool :=
is_word c || is_space c || one_of ".,!?;:-'()" c || (code c =? 34)%nat.

(** The negated class of those characters. *)
Definition special_re : re := Cls (fun c => negb (kept c)).

(** ** The documents *)

(** An email dictionary as [imap_client.parse_email] builds it; [None] is
    an absent key. *)
Record Email : Type := mk_email {
  subject : option str;
  from_ : option str;
  date : option str;
  body : option str;
  full_body : option str
}.

(** [d.get(key, default)] *)
Definition get (field : option str) (default : str) : str :=
match field with Some v => v | None => default end.

(** ** [class SemanticSearchEngine] *)

Record SemanticSearchEngine : Type := mk_engine {
  model : str -> Np.ndarray;       (* self.model.encode *)
  model_name : str;
  similarity_threshold : float
}.

(** [__init__]: [load] stands for the [SentenceTransformer] constructor,
    which fails on a model it cannot load; the named fallback model is
    tried once, and its failure is the failure of the construction. *)
Definition init (load : str -> option (str -> Np.ndarray))
  (name : str) (threshold : float) : option SemanticSearchEngine :=
match load name with
| Some m => Some (mk_engine m name threshold)
| None =>
    match load "all-MiniLM-L6-v2" with
    | Some m => Some (mk_engine m "all-MiniLM-L6-v2" threshold)
    | None => None
    end
end.

(** [get_semantic_engine]: the engine with the default arguments. *)
Definition get_semantic_engine (load : str -> option (str -> Np.ndarray))
  : option SemanticSearchEngine :=
init load "all-mpnet-base-v2" 0.1%float.

(** [model.encode(text, convert_to_tensor=False)], logged. *)
Definition encode (self : SemanticSearchEngine) (text : str) : M Np.ndarray :=
fun log => (model self text, log ++ [text]).

Section Engine.

(** [html.unescape] of the standard library. *)
Variable html_unescape : str -> str.

Definition clean_email_body (body : str) : str :=
if is_empty body then []
else
  let text := body in
  (* Decode HTML entities *)
  let text := html_unescape text in
  (* Remove HTML tags *)
  let text := sub tag_re " " text in
  (* Remove URLs *)
  let text := sub url_re " " text in
  (* Remove email addresses *)
  let text := sub email_re " " text in
  (* Remove excessive whitespace and line breaks *)
  let text := sub ws_re " " text in
  (* Remove common email footers and signatures *)
  let text := sub footer_re "" text in
  (* Remove quoted text (lines starting with >) *)
  let lines := split "010" text in
  let cleaned_lines :=
    filter (fun line => negb (startswith ">" (strip line))) lines in
  let text := join " " cleaned_lines in
  (* Remove special characters but keep basic punctuation *)
  let text := sub special_re " " text in
  (* Final cleanup: remove extra spaces and trim *)
  let text := strip (sub ws_re " " text) in
  (* Limit length (keep first 500 characters) *)
  if (500 <? length text)%nat then firstn 500 text ++ lit "..." else text.

(** [combined_text] of [create_email_embedding] before the test for empty
    content: the subject twice, then the cleaned body. *)
Definition weighted_text (email_data : Email) : str :=
let subject := strip (get (subject email_data) "") in
(* Use full_body if available, otherwise fall back to body *)
let body :=
  match full_body email_data with
  | Some b => b
  | None => get (body email_data) ""
  end in
let cleaned_body := clean_email_body body in
subject ++ lit " " ++ subject ++ lit " " ++ cleaned_body.

(** The text that [create_email_embedding] hands to the model. *)
Definition combined_text (email_data : Email) : str :=
let combined_text := weighted_text email_data in
(* Handle empty content *)
if is_empty (strip combined_text) then lit "empty email" else combined_text.

Definition create_email_embedding (self : SemanticSearchEngine)
  (email_data : Email) : M Np.ndarray :=
embedding <- encode self (combined_text email_data) ;;
ret (Np.div embedding (Np.norm embedding)).

Definition create_query_embedding (self : SemanticSearchEngine)
  (query : str) : M Np.ndarray :=
embedding <- encode self query ;;
ret (Np.div embedding (Np.norm embedding)).

Definition compute_similarity (query_embedding : Np.ndarray)
  (email_embeddings : list Np.ndarray) : list float :=
match email_embeddings with
| [] => []
| _ :: _ => map (fun row => Np.dot row query_embedding) email_embeddings
end.

Definition Scored : Type := (Email * float)%type.

Definition semantic_search (self : SemanticSearchEngine) (query : str)
  (emails : list Email) (top_k : Z) (min_threshold : option float)
  : M (list Scored) :=
match emails with
| [] => ret []
| _ :: _ =>
    let threshold :=
      match min_threshold with
      | Some t => t
      | None => similarity_threshold self
      end in
    query_embedding <- create_query_embedding self query ;;
    email_embeddings <- for_each (create_email_embedding self) emails ;;
    let similarities := compute_similarity query_embedding email_embeddings in
    let email_scores := combine emails similarities in
    let filtered_scores :=
      filter (fun es => geb (snd es) threshold) email_scores in
    match filtered_scores with
    | [] =>
        let email_scores := sort_desc snd email_scores in
        ret (match email_scores with
             | [] => []
             | _ :: _ => slice_to 1 email_scores
             end)
    | _ :: _ =>
        let filtered_scores := sort_desc snd filtered_scores in
        ret (slice_to top_k filtered_scores)
    end
end.

Definition search_with_threshold (self : SemanticSearchEngine) (query : str)
  (emails : list Email) (threshold : float) (top_k : Z) : M (list Scored) :=
results <- semantic_search self query emails (Z.of_nat (length emails)) None ;;
let filtered_results := filter (fun es => geb (snd es) threshold) results in
ret (slice_to top_k filtered_results).

(** ** The same search without the log *)

(** The similarity of one document to the query. *)
Definition score (self : SemanticSearchEngine) (query : str) (e : Email) : float :=
let q := model self query in
let d := model self (combined_text e) in
Np.dot (Np.div d (Np.norm d)) (Np.div q (Np.norm q)).

(** [email_scores]: every document with its score, in corpus order. *)
Definition scored (self : SemanticSearchEngine) (query : str)
  (emails : list Email) : list Scored :=
map (fun e => (e, score self query e)) emails.

(** The threshold in force. *)
Definition resolve (self : SemanticSearchEngine) (min_threshold : option float) : float :=
match min_threshold with
| Some t => t
| None => similarity_threshold self
end.

(** [filtered_scores]: the thresholded set, in corpus order. *)
Definition thresholded (self : SemanticSearchEngine) (query : str)
  (emails : list Email) (threshold : float) : list Scored :=
filter (fun es => geb (snd es) threshold) (scored self query emails).

(** What a search returns, and the texts it sends to the model. *)
Definition result_of {A : Type} (m : M A) : A := fst (m []).
Definition calls_of {A : Type} (m : M A) : list str := snd (m []).

End Engine.

End SemanticSearch.

(** * What the last steps of the cleaner compute *)

Module Shape.
Import Py Re SemanticSearch.

Fixpoint take_while (p : ascii -> bool) (s : str) : str :=
match s with
| [] => []
| c :: s' => if p c then c :: take_while p s' else []
end.

(** What [re.sub(r'\s+', ' ', s)] computes: every run of whitespace becomes
    one space; [in_run] tells that the previous character was whitespace. *)
Fixpoint squeeze (in_run : bool) (s : str) : str :=
match s with
| [] => []
| c :: s' =>
    if is_space c
    then if in_run then squeeze true s' else " "%char :: squeeze true s'
    else c :: squeeze false s'
end.

(** What the substitution of the special characters computes. *)
Definition scrub (s : str) : str :=
map (fun c => if kept c then c else " "%char) s.

Definition head_space (s : str) : bool :=
match s with
| [] => false
| c :: _ => is_space c
end.

(** Whitespace occurs only as single spaces. *)
Fixpoint spaced (s : str) : bool :=
match s with
| [] => true
| c :: s' =>
    (if is_space c then Ascii.eqb c " " && negb (head_space s') else true)
    && spaced s'
end.

(** The shape of a cleaned text: kept characters only, single spaces, no
    whitespace at either end, and the length cap already applied. *)
Record cleaned (t : str) : Prop := {
  cleaned_kept : Forall (fun c => kept c = true) t;
  cleaned_spaced : spaced t = true;
  cleaned_lstrip : lstrip t = t;
  cleaned_rstrip : rstrip t = t;
  cleaned_cap : (500 < length t)%nat -> firstn 500 t ++ lit "..." = t
}.

End Shape.

(** * Concrete collaborators, for evaluating the engine *)

Module Sample.
Import Py SemanticSearch.

Local Open Scope string_scope.
Local Open Scope list_scope.

(** A stand-in for [html.unescape]: it decodes the five predefined
    entities, written with their semicolon, and copies everything else.
    Like the library function it returns a text without [&] unchanged. *)
Definition entities : list (str * ascii) :=
[ (lit "&amp;", "&"%char); (lit "&lt;", "<"%char); (lit "&gt;", ">"%char);
  (lit "&quot;", "034"%char); (lit "&#39;", "'"%char) ].

Definition entity_at (s : str) : option (ascii * nat) :=
match find (fun e => startswith (fst e) s) entities with
| Some (name, c) => Some (c, length name - 1)
| None => None
end.

Fixpoint unescape_go (skip : nat) (s : str) : str :=
match s with
| [] => []
| c :: s' =>
    match skip with
    | S n => unescape_go n s'
    | O =>
        match entity_at s with
        | Some (x, n) => x :: unescape_go n s'
        | None => c :: unescape_go 0 s'
        end
    end
end.

Definition unescape (s : str) : str := unescape_go 0 s.

(** A two-dimensional embedding model that only looks at the first
    character of the text. *)
Definition first_letter_model (text : str) : Np.ndarray :=
match text with
| [] => [0; 1]
| c :: _ =>
    if Ascii.eqb c "a" then [1; 0]
    else if Ascii.eqb c "b" then [1; 1]
    else if Ascii.eqb c "z" then [0; 0]
    else [0; 1]
end%float.

Definition engine : SemanticSearchEngine :=
mk_engine first_letter_model "first-letter" 0.1%float.

(** An email with the given subject and body, as [parse_email] returns it. *)
Definition mail (subject body : string) : Email :=
mk_email (Some (lit subject)) None None (Some (firstn 200 (lit body))) (Some (lit body)).

(** With the query "a" the scores are 0, about 0.707 and 0. *)
Definition low_corpus : list Email :=
[mail "c: minutes" "see attachment"; mail "b: budget" "numbers"; mail "c: lunch" "today?"].

(** With the query "a" the scores are about 0.707, 1, 0.707 and 0. *)
Definition mixed_corpus : list Email :=
[mail "b first" "x"; mail "a" "y"; mail "b second" "z"; mail "c" "w"].

(** With the query "a" the scores are 0, NaN (the vector of the second
    document is zero) and about 0.707. *)
Definition nan_corpus : list Email :=
[mail "c: minutes" "see attachment"; mail "z: void" "nothing"; mail "b: budget" "numbers"].

End Sample.

(** * More of [str] *)

Module PyStr.
Import Py.

(** [a == b] on strings. *)
Fixpoint str_eqb (a b : str) : bool :=
match a, b with
| [], [] => true
| x :: a', y :: b' => Ascii.eqb x y && str_eqb a' b'
| _, _ => false
end.

(** [needle in hay] *)
Fixpoint contains (needle hay : str) : bool :=
startswith needle hay ||
match hay with
| [] => false
| _ :: hay' => contains needle hay'
end.

(** [str.lower] of one character below 256: A..Z and the capital letters
    of Latin-1 (192..222 but the multiplication sign 215) move up by 32. *)
Definition lower_char (c : ascii) : ascii :=
if between 65 90 c || between 192 214 c || between 216 222 c
then ascii_of_nat (code c + 32)
else c.

(** [s.lower()] *)
Definition str_lower (s : str) : str := map lower_char s.

(** The truth value of an optional string: [None] and the empty string
    are false. *)
Definition truthy (v : option str) : bool :=
match v with
| Some (_ :: _) => true
| _ => false
end.

End PyStr.

(** * [imap_client.py] *)

Module Imap.
Import Py PyStr SemanticSearch.

Local Open Scope string_scope.
Local Open Scope list_scope.

(** A part of a message as [msg.walk()] yields it, seen through the three
    calls that [parse_email] makes on it. *)
Record Part : Type := mk_part {
  content_type : str;                (* part.get_content_type() *)
  content_disposition : option str;  (* part.get("Content-Disposition") *)
  part_text : str                    (* get_payload(decode=True).decode(errors="ignore") *)
}.

(** A message of the [email] library, seen through the calls that
    [parse_email] makes on it. [header_subject] is the first chunk of
    [decode_header(msg.get("Subject"))], decoded; it is [None] when these
    calls raise: [TypeError] for a message without Subject header, whose
    [msg.get("Subject")] is [None], and [LookupError] for a chunk in a
    charset that Python does not know. *)
Record Message : Type := mk_message {
  header_subject : option str;
  header_from : option str;          (* msg.get("From") *)
  header_date : option str;          (* msg.get("Date") *)
  is_multipart : bool;               (* msg.is_multipart() *)
  walk : list Part;                  (* msg.walk() *)
  payload_text : str                 (* get_payload(decode=True).decode(errors="ignore") *)
}.

(** [body] of [parse_email]: the first plain-text part without a content
    disposition, or the payload of a message that is not multipart. *)
Definition body_text (msg : Message) : str :=
if is_multipart msg
then
  match find (fun part =>
                str_eqb (content_type part) "text/plain"
                && negb (truthy (content_disposition part)))
             (walk msg)
  with
  | Some part => part_text part
  | None => []
  end
else payload_text msg.

(** [parse_email]; [None] is the exception of the first two lines. *)
Definition parse_email (msg : Message) (full_body : bool) : option Email :=
match header_subject msg with
| None => None
| Some subject =>
    let from_ := header_from msg in
    let date_ := header_date msg in
    let body := body_text msg in
    (* Store full body and truncated version *)
    let full_body_content := strip body in
    let preview_body :=
      if negb full_body then firstn 200 full_body_content else full_body_content in
    Some (mk_email
            (Some (if is_empty subject then lit "(No Subject)" else subject))
            from_ date_ (Some preview_body) (Some full_body_content))
end.

(** The loop of [fetch_all_emails] over the reversed mailbox; a message
    that [parse_email] rejects ends it with the exception. *)
Fixpoint fetch_loop (msgs : list Message) : option (list Email) :=
match msgs with
| [] => Some []
| msg :: rest =>
    match parse_email msg false with
    | None => None
    | Some parsed =>
        match fetch_loop rest with
        | None => None
        | Some emails => Some (parsed :: emails)
        end
    end
end.

(** [fetch_all_emails]: [mailbox] lists the messages of the folder in the
    order of [mail.search(None, "ALL")]. *)
Definition fetch_all_emails (mailbox : list Message) : option (list Email) :=
fetch_loop (rev mailbox).

(** [keyword.lower() in field.lower()]; a missing key and a field that is
    [None] raise. *)
Definition lower_in (keyword : str) (field : option str) : option bool :=
match field with
| Some v => Some (contains (str_lower keyword) (str_lower v))
| None => None
end.

(** The condition of [search_emails], with the short circuit of [or];
    [None] is an exception. *)
Definition keyword_matches (keyword : str) (parsed : Email) : option bool :=
match lower_in keyword (subject parsed) with
| None => None
| Some true => Some true
| Some false =>
    match lower_in keyword (full_body parsed) with
    | None => None
    | Some true => Some true
    | Some false =>
        match lower_in keyword (from_ parsed) with
        | None => None
        | Some true => Some true
        | Some false => lower_in keyword (date parsed)
        end
    end
end.

(** The loop of [search_emails] over the reversed mailbox. *)
Fixpoint search_loop (keyword : str) (msgs : list Message) : option (list Email) :=
match msgs with
| [] => Some []
| msg :: rest =>
    match parse_email msg false with
    | None => None
    | Some parsed =>
        match keyword_matches keyword parsed with
        | None => None
        | Some hit =>
            match search_loop keyword rest with
            | None => None
            | Some result => Some (if hit then parsed :: result else result)
            end
        end
    end
end.

Definition search_emails (mailbox : list Message) (keyword : str) : option (list Email) :=
search_loop keyword (rev mailbox).

End Imap.

(** * [cli_app.py] and [web_app.py] *)

Module App.
Import Py PyStr SemanticSearch.

Local Open Scope string_scope.
Local Open Scope list_scope.

(** [generate_email_summary]; [None] is the [KeyError] of a dictionary
    without [subject] or [body]. *)
Definition generate_email_summary (email_ : Email) : option str :=
match subject email_, body email_ with
| Some subject, Some body =>
    Some
      ((* If subject is meaningful, use it as the summary *)
       if negb (is_empty subject)
          && negb (str_eqb subject "(No Subject)")
          && (3 <? length (strip subject))%nat
       then strip subject
       else
         (* Otherwise, use the first meaningful sentence from the body *)
         if negb (is_empty body)
         then
           let lines := split "010" (strip body) in
           match find (fun line => negb (is_empty line) && (10 <? length line)%nat)
                      (map strip lines)
           with
           | Some line =>
               if (100 <? length line)%nat then firstn 97 line ++ lit "..." else line
           | None => lit "(No content preview available)"
           end
         else lit "(No content preview available)")
| _, _ => None
end.

(** The score categories of [display_summary_with_scores] and of the
    [/semantic-search] response. *)
Inductive Category : Type := High | Medium | Low | VeryLow.

Definition score_category (score : float) : Category :=
if geb score 0.5 then High
else if geb score 0.3 then Medium
else if geb score 0.1 then Low
else VeryLow.

(** [min_threshold < 0.0 or min_threshold > 1.0] *)
Definition threshold_out_of_range (min_threshold : float) : bool :=
(min_threshold <? 0)%float || (1 <? min_threshold)%float.

(** The threshold that option 3 of [run_cli] searches with; [parsed] is
    [float(threshold_input)], or [None] for no input and for text that is
    not a number. *)
Definition cli_threshold (parsed : option float) : float :=
match parsed with
| Some t => if threshold_out_of_range t then 0.1%float else t
| None => 0.1%float
end.

End App.

(** * The process-wide engine and the convenience functions *)

Module Process.
Import Py Log SemanticSearch.

Local Open Scope string_scope.
Local Open Scope list_scope.

(** The global [_semantic_engine], and the names of the models that the
    process has tried to load. *)
Record State : Type := mk_state {
  semantic_engine : option SemanticSearchEngine;
  loads : list str
}.

(** [SemanticSearchEngine()] with its default arguments, logging the
    loads. *)
Definition construct (load : str -> option (str -> Np.ndarray)) (tried : list str)
  : option SemanticSearchEngine * list str :=
match load "all-mpnet-base-v2" with
| Some m =>
    (Some (mk_engine m "all-mpnet-base-v2" 0.1%float), tried ++ [lit "all-mpnet-base-v2"])
| None =>
    match load "all-MiniLM-L6-v2" with
    | Some m =>
        (Some (mk_engine m "all-MiniLM-L6-v2" 0.1%float),
         tried ++ [lit "all-mpnet-base-v2"; lit "all-MiniLM-L6-v2"])
    | None => (None, tried ++ [lit "all-mpnet-base-v2"; lit "all-MiniLM-L6-v2"])
    end
end.

(** [get_semantic_engine]: [None] is the exception of a construction that
    failed, which leaves the global unset. *)
Definition get_semantic_engine (load : str -> option (str -> Np.ndarray)) (st : State)
  : option SemanticSearchEngine * State :=
match semantic_engine st with
| Some e => (Some e, st)
| None =>
    match construct load (loads st) with
    | (Some e, tried) => (Some e, mk_state (Some e) tried)
    | (None, tried) => (None, mk_state None tried)
    end
end.

Section Convenience.
Variable html_unescape : str -> str.
Variable load : str -> option (str -> Np.ndarray).

(** [semantic_search_with_scores]; [emails] is what [fetch_all_emails]
    returned. *)
Definition semantic_search_with_scores (emails : list Email) (query : str)
  (top_k : Z) (min_threshold : option float) (st : State)
  : option (list Scored) * State :=
match emails with
| [] => (Some [], st)
| _ :: _ =>
    match get_semantic_engine load st with
    | (Some engine, st') =>
        (Some (result_of
                 (semantic_search html_unescape engine query emails top_k min_threshold)),
         st')
    | (None, st') => (None, st')
    end
end.

(** [semantic_search_emails] *)
Definition semantic_search_emails (emails : list Email) (query : str)
  (top_k : Z) (min_threshold : option float) (st : State)
  : option (list Email) * State :=
match emails with
| [] => (Some [], st)
| _ :: _ =>
    match get_semantic_engine load st with
    | (Some engine, st') =>
        let results :=
          result_of (semantic_search html_unescape engine query emails top_k min_threshold) in
        (Some (map fst results), st')
    | (None, st') => (None, st')
    end
end.

End Convenience.

End Process.

(** * A concrete mailbox and concrete loaders *)

Module SampleMail.
Import Py PyStr SemanticSearch Imap Process Sample.

Local Open Scope string_scope.
Local Open Scope list_scope.

Definition invoice : Message :=
mk_message (Some (lit "Invoice due")) (Some (lit "billing@example.org")) (Some (lit "Mon, 1 Jan"))
  false [] "  Please pay the invoice by Friday.  ".

Definition receipt : Message :=
mk_message (Some (lit "Receipt")) (Some (lit "shop@example.org")) (Some (lit "Tue, 2 Jan"))
  false [] "Thank you for your payment.".

(** A multipart message without sender and date; its body is the last
    part, the only plain text without a content disposition. *)
Definition lunch : Message :=
mk_message (Some (lit "Lunch?")) None None true
  [ mk_part "multipart/mixed" None "";
    mk_part "text/html" None "<p>Want to grab lunch today?</p>";
    mk_part "text/plain" (Some (lit "attachment")) "menu";
    mk_part "text/plain" None "Want to grab lunch today?" ]
  "".

(** A message with an empty subject and an empty body. *)
Definition hollow : Message := mk_message (Some []) None None false [] "".

(** A message without Subject header. *)
Definition untitled : Message :=
mk_message None (Some (lit "list@example.org")) (Some (lit "Wed, 3 Jan"))
  false [] "Nightly build finished.".

(** A message whose body has 252 characters. *)
Definition report : Message :=
mk_message (Some (lit "Report")) (Some (lit "ops@example.org")) (Some (lit "Thu, 4 Jan"))
  false [] (concat (repeat (lit "all systems nominal. ") 12)).

(** What [parse_email] makes of [invoice] and of [lunch]. *)
Definition invoice_email : Email :=
mk_email (Some (lit "Invoice due")) (Some (lit "billing@example.org"))
  (Some (lit "Mon, 1 Jan")) (Some (lit "Please pay the invoice by Friday."))
  (Some (lit "Please pay the invoice by Friday.")).

Definition lunch_email : Email :=
mk_email (Some (lit "Lunch?")) None None (Some (lit "Want to grab lunch today?"))
  (Some (lit "Want to grab lunch today?")).

(** A loader that knows every model, one that knows only the fallback
    model, and one that knows none. *)
Definition load_any (name : str) : option (str -> Np.ndarray) :=
Some first_letter_model.

Definition load_fallback_only (name : str) : option (str -> Np.ndarray) :=
if str_eqb name "all-MiniLM-L6-v2" then Some first_letter_model else None.

Definition load_none (name : str) : option (str -> Np.ndarray) := None.

End SampleMail.

(** * Properties *)

Unset Implicit Arguments.

(** * Facts about the Python primitives *)

Module PyFacts.
Import Py.

(** ** The order of floats *)

Lemma lex3_antisym (a b : Z * Z * Z) : lex3 b a = CompOpp (lex3 a b).
Proof.
  destruct a as [[a1 a2] a3], b as [[b1 b2] b3]; unfold lex3.
  rewrite (Z.compare_antisym a1 b1), (Z.compare_antisym a2 b2), (Z.compare_antisym a3 b3).
  destruct (a1 ?= b1)%Z, (a2 ?= b2)%Z, (a3 ?= b3)%Z; reflexivity.
Qed.

Lemma lex3_eq (a b : Z * Z * Z) : lex3 a b = Eq -> a = b.
Proof.
  destruct a as [[a1 a2] a3], b as [[b1 b2] b3]; unfold lex3.
  destruct (Z.compare_spec a1 b1); try discriminate.
  destruct (Z.compare_spec a2 b2); try discriminate.
  destruct (Z.compare_spec a3 b3); try discriminate.
  intros _; congruence.
Qed.

Lemma lex3_refl (a : Z * Z * Z) : lex3 a a = Eq.
Proof.
  destruct a as [[a1 a2] a3]; unfold lex3. now rewrite !Z.compare_refl.
Qed.

Lemma lex3_le_trans (a b c : Z * Z * Z) :
  lex3 a b <> Gt -> lex3 b c <> Gt -> lex3 a c <> Gt.
Proof.
  destruct a as [[a1 a2] a3], b as [[b1 b2] b3], c as [[c1 c2] c3]; unfold lex3.
  destruct (Z.compare_spec a1 b1), (Z.compare_spec b1 c1), (Z.compare_spec a1 c1);
    try lia; try congruence;
    destruct (Z.compare_spec a2 b2), (Z.compare_spec b2 c2), (Z.compare_spec a2 c2);
    try lia; try congruence;
    destruct (Z.compare_spec a3 b3), (Z.compare_spec b3 c3), (Z.compare_spec a3 c3);
    try lia; congruence.
Qed.

Lemma SFcompare_key (x y : spec_float) :
  x <> S754_nan -> y <> S754_nan ->
  SFcompare x y = Some (lex3 (sf_key x) (sf_key y)).
Proof.
  destruct x as [sx|sx| |sx mx ex], y as [sy|sy| |sy my ey]; try congruence; intros _ _;
    try destruct sx; try destruct sy; cbn; try reflexivity.
  rewrite Z.compare_opp, (Z.compare_antisym ey ex).
  destruct (ey ?= ex)%Z; reflexivity.
Qed.

Lemma SFcompare_nan_l (y : spec_float) : SFcompare S754_nan y = None.
Proof. reflexivity. Qed.

Lemma SFcompare_nan_r (x : spec_float) : SFcompare x S754_nan = None.
Proof. destruct x; reflexivity. Qed.

Lemma not_nan_spec (x : float) : not_nan x <-> Prim2SF x <> S754_nan.
Proof.
  unfold not_nan, is_nan. rewrite eqb_spec. unfold SFeqb.
  destruct (Prim2SF x) eqn:E.
  - split; [congruence | reflexivity].
  - split; [congruence | now destruct s].
  - split; [discriminate | congruence].
  - rewrite SFcompare_key, lex3_refl by congruence. split; [congruence | reflexivity].
Qed.

Lemma ltb_negb_leb (a b : float) :
  not_nan a -> not_nan b -> (a <? b)%float = negb (b <=? a)%float.
Proof.
  rewrite !not_nan_spec, ltb_spec, leb_spec. intros Ha Hb.
  unfold SFltb, SFleb. rewrite !SFcompare_key by assumption.
  rewrite (lex3_antisym (sf_key (Prim2SF a)) (sf_key (Prim2SF b))).
  destruct (lex3 (sf_key (Prim2SF a)) (sf_key (Prim2SF b))); reflexivity.
Qed.

Lemma leb_refl (a : float) : not_nan a -> (a <=? a)%float = true.
Proof.
  rewrite not_nan_spec, leb_spec. intros Ha. unfold SFleb.
  now rewrite SFcompare_key, lex3_refl.
Qed.

Lemma leb_not_nan (a b : float) : (a <=? b)%float = true -> not_nan a /\ not_nan b.
Proof.
  rewrite !not_nan_spec, leb_spec. unfold SFleb. intros H; split; intros E; rewrite E in H.
  - rewrite SFcompare_nan_l in H; discriminate.
  - rewrite SFcompare_nan_r in H; discriminate.
Qed.

Lemma leb_trans (a b c : float) :
  (a <=? b)%float = true -> (b <=? c)%float = true -> (a <=? c)%float = true.
Proof.
  intros H1 H2.
  destruct (leb_not_nan _ _ H1) as [Ha Hb], (leb_not_nan _ _ H2) as [_ Hc].
  revert H1 H2. rewrite not_nan_spec in Ha, Hb, Hc.
  rewrite !leb_spec. unfold SFleb. rewrite !SFcompare_key by assumption.
  pose proof (lex3_le_trans (sf_key (Prim2SF a)) (sf_key (Prim2SF b)) (sf_key (Prim2SF c))) as T.
  destruct (lex3 (sf_key (Prim2SF a)) (sf_key (Prim2SF b))),
    (lex3 (sf_key (Prim2SF b)) (sf_key (Prim2SF c))),
    (lex3 (sf_key (Prim2SF a)) (sf_key (Prim2SF c)));
    try reflexivity; try discriminate;
    intros _ _; exfalso; apply T; congruence.
Qed.

Lemma eqb_key (a b : float) :
  (a =? b)%float = true -> sf_key (Prim2SF a) = sf_key (Prim2SF b) /\ not_nan a /\ not_nan b.
Proof.
  rewrite !not_nan_spec, eqb_spec. unfold SFeqb. intros H.
  assert (Ha : Prim2SF a <> S754_nan).
  { intros E; rewrite E, SFcompare_nan_l in H; discriminate. }
  assert (Hb : Prim2SF b <> S754_nan).
  { intros E; rewrite E, SFcompare_nan_r in H; discriminate. }
  rewrite SFcompare_key in H by assumption.
  repeat split; try assumption. apply lex3_eq.
  now destruct (lex3 (sf_key (Prim2SF a)) (sf_key (Prim2SF b))).
Qed.

(** Two keys equal to a third are not in strict order. *)
Lemma eqb_eqb_ltb (a b v : float) :
  (a =? v)%float = true -> (b =? v)%float = true -> (a <? b)%float = false.
Proof.
  intros Ha Hb.
  destruct (eqb_key _ _ Ha) as (Ka & Na & _), (eqb_key _ _ Hb) as (Kb & Nb & _).
  rewrite not_nan_spec in Na, Nb.
  rewrite ltb_spec. unfold SFltb. rewrite SFcompare_key by assumption.
  now rewrite Ka, Kb, lex3_refl.
Qed.

(** Equal keys compare alike with any bound. *)
Lemma eqb_geb (a v t : float) :
  (a =? v)%float = true -> geb a t = geb v t.
Proof.
  intros Ha. destruct (eqb_key _ _ Ha) as (Ka & Na & Nv).
  rewrite not_nan_spec in Na, Nv. unfold geb. rewrite !leb_spec. unfold SFleb.
  destruct (Prim2SF t) eqn:Et;
    try (rewrite !SFcompare_key, Ka by congruence; reflexivity).
  reflexivity.
Qed.

Lemma leb_antisym (a b : float) :
  (a <=? b)%float = true -> (b <=? a)%float = true -> (a =? b)%float = true.
Proof.
  intros H1 H2. destruct (leb_not_nan _ _ H1) as [Ha Hb].
  rewrite not_nan_spec in Ha, Hb. revert H1 H2.
  rewrite !leb_spec, eqb_spec. unfold SFleb, SFeqb.
  rewrite !SFcompare_key by assumption.
  rewrite (lex3_antisym (sf_key (Prim2SF a)) (sf_key (Prim2SF b))).
  destruct (lex3 (sf_key (Prim2SF a)) (sf_key (Prim2SF b))); cbn; congruence.
Qed.

Lemma eqb_refl (a : float) : not_nan a -> (a =? a)%float = true.
Proof. intros H. apply leb_antisym; now apply leb_refl. Qed.

End PyFacts.

Module ReFacts.
Import Py Re Shape.

Lemma star_loop_sound step k :
  (forall prev s k' rest, step prev s k' = Some rest ->
     exists w prev' s', s = w ++ s' /\ k' prev' s' = Some rest) ->
  forall n prev s rest, star_loop step k n prev s = Some rest ->
    exists w prev' s', s = w ++ s' /\ k prev' s' = Some rest.
Proof.
  intros Hstep. induction n as [|n IH]; intros prev s rest; simpl.
  - intros H. now exists [], prev, s.
  - destruct (step prev s _) as [r|] eqn:E.
    + intros [= ->]. apply Hstep in E. destruct E as (w1 & p1 & s1 & -> & E).
      destruct (length s1 <? length (w1 ++ s1))%nat; [|discriminate].
      apply IH in E. destruct E as (w2 & p2 & s2 & -> & E).
      exists (w1 ++ w2), p2, s2. now rewrite app_assoc.
    + intros H. now exists [], prev, s.
Qed.

(** A successful match consumed a prefix [w] of the text, and [w] contains
    every character that the pattern must contain. *)
Lemma run_sound (c : ascii) (r : re) :
  forall prev s k rest, run r prev s k = Some rest ->
    exists w prev' s', s = w ++ s' /\ k prev' s' = Some rest /\
      (must c r = true -> In c w).
Proof.
  induction r as [|x|p|a IHa b IHb|a IHa b IHb|a IHa|]; intros prev s k rest; simpl.
  - intros H. exists [], prev, s. repeat split; [assumption | discriminate].
  - destruct s as [|y s']; [discriminate|].
    destruct (Ascii.eqb_spec y x) as [->|]; [|discriminate].
    intros H. exists [x], (Some x), s'. repeat split; [assumption|].
    intros E. apply Ascii.eqb_eq in E. now left.
  - destruct s as [|y s']; [discriminate|]. destruct (p y); [|discriminate].
    intros H. exists [y], (Some y), s'. repeat split; [assumption | discriminate].
  - intros H. apply IHa in H. destruct H as (w1 & p1 & s1 & -> & H & Ma).
    apply IHb in H. destruct H as (w2 & p2 & s2 & -> & H & Mb).
    exists (w1 ++ w2), p2, s2. rewrite app_assoc. repeat split; [assumption|].
    intros M. apply orb_true_iff in M. apply in_or_app. tauto.
  - destruct (run a prev s k) as [r|] eqn:E.
    + intros [= ->]. apply IHa in E. destruct E as (w & p' & s' & -> & E & M).
      exists w, p', s'. repeat split; [assumption|].
      intros M'. apply andb_true_iff in M'. tauto.
    + intros H. apply IHb in H. destruct H as (w & p' & s' & -> & E' & M).
      exists w, p', s'. repeat split; [assumption|].
      intros M'. apply andb_true_iff in M'. tauto.
  - intros H. apply star_loop_sound in H.
    + destruct H as (w & p' & s' & -> & H). exists w, p', s'.
      repeat split; [assumption | discriminate].
    + intros prev0 s0 k' rest0 H0. apply IHa in H0.
      destruct H0 as (w & p' & s' & -> & H0 & _). eauto.
  - destruct (at_boundary prev s); [|discriminate].
    intros H. exists [], prev, s. repeat split; [assumption | discriminate].
Qed.

Lemma match_at_must (c : ascii) (r : re) (prev : option ascii) (s : str) :
  must c r = true -> ~ In c s -> match_at r prev s = None.
Proof.
  intros M Hc. unfold match_at.
  destruct (run r prev s _) as [rest|] eqn:E; [|reflexivity].
  apply (run_sound c) in E. destruct E as (w & p' & s' & -> & _ & Hw).
  elim Hc. apply in_or_app. left. now apply Hw.
Qed.

(** A pattern that matches nowhere leaves the text as it is. *)
Lemma sub_go_no_match (r : re) (repl : str) :
  forall s prev, search r prev s = false -> sub_go r repl 0 prev s = s.
Proof.
  induction s as [|c s IH]; intros prev; simpl.
  - destruct (match_at r prev []); [discriminate | reflexivity].
  - destruct (match_at r prev (c :: s)); [discriminate|].
    intros H. now rewrite IH.
Qed.

(** A substitution writes characters of the text and of the replacement. *)
Lemma sub_go_chars (r : re) (repl : str) (c : ascii) :
  forall s skip prev, In c (sub_go r repl skip prev s) -> In c repl \/ In c s.
Proof.
  induction s as [|x s IH]; intros skip prev; cbn [sub_go].
  - destruct skip, (match_at r prev []); cbn; tauto.
  - destruct skip as [|n].
    + destruct (match_at r prev (x :: s)) as [[|n]|]; cbn [In]; rewrite ?in_app_iff;
        cbn [In]; intros H; repeat destruct H as [H|H]; auto;
        apply IH in H; tauto.
    + intros H. apply IH in H. cbn [In]. tauto.
Qed.

Lemma sub_no_match (r : re) (repl s : str) :
  search r None s = false -> sub r repl s = s.
Proof. apply sub_go_no_match. Qed.

Lemma search_must (c : ascii) (r : re) :
  must c r = true -> forall s prev, ~ In c s -> search r prev s = false.
Proof.
  intros M. induction s as [|x s IH]; intros prev Hc; simpl.
  - now rewrite (match_at_must c).
  - rewrite (match_at_must c) by assumption. apply IH. intros H; apply Hc; now right.
Qed.

Lemma sub_must (c : ascii) (r : re) (repl s : str) :
  must c r = true -> ~ In c s -> sub r repl s = s.
Proof.
  intros M Hc. apply sub_go_no_match. now apply (search_must c).
Qed.

(** ** One class, and one or more characters of a class *)

Lemma match_at_cls (p : ascii -> bool) (prev : option ascii) (s : str) :
  match_at (Cls p) prev s =
  match s with
  | c :: _ => if p c then Some 1 else None
  | [] => None
  end.
Proof.
  unfold match_at. destruct s as [|c s]; cbn [run]; [reflexivity|].
  destruct (p c); [|reflexivity]. f_equal. cbn [length]. lia.
Qed.

Lemma star_loop_cls (p : ascii -> bool) :
  forall s n prev, (length s <= n)%nat ->
    star_loop (run (Cls p)) (fun _ rest => Some rest) n prev s = Some (drop_while p s).
Proof.
  induction s as [|c s IH]; intros n prev Hn.
  - destruct n; reflexivity.
  - destruct n as [|n]; [simpl in Hn; lia|]. simpl.
    destruct (p c); [|reflexivity].
    replace (length s <? S (length s))%nat with true
      by (symmetry; apply Nat.ltb_lt; lia).
    rewrite IH by (simpl in Hn; lia). reflexivity.
Qed.

Lemma drop_while_length (p : ascii -> bool) (s : str) :
  length (drop_while p s) + length (take_while p s) = length s.
Proof.
  induction s as [|c s IH]; simpl; [reflexivity|].
  destruct (p c); simpl; lia.
Qed.

Lemma match_at_plus_cls (p : ascii -> bool) (prev : option ascii) (s : str) :
  match_at (Plus (Cls p)) prev s =
  match s with
  | c :: s' => if p c then Some (S (length (take_while p s'))) else None
  | [] => None
  end.
Proof.
  unfold match_at, Plus. destruct s as [|c s]; [reflexivity|].
  change (run (Cat (Cls p) (Star (Cls p))) prev (c :: s) (fun _ rest => Some rest))
    with (if p c
          then star_loop (run (Cls p)) (fun _ rest => Some rest) (length s) (Some c) s
          else None).
  destruct (p c); [|reflexivity].
  rewrite star_loop_cls by lia. f_equal.
  pose proof (drop_while_length p s). cbn [length]. lia.
Qed.

End ReFacts.

Module CleanFacts.
Import Py Re Shape ReFacts SemanticSearch.

(** ** The two substitutions that shape the output *)

Lemma sub_go_ws (s : str) :
  forall prev,
    sub_go ws_re (lit " ") (length (take_while is_space s)) prev s = squeeze true s /\
    sub_go ws_re (lit " ") 0 prev s = squeeze false s.
Proof.
  unfold ws_re. induction s as [|c s IH]; intros prev.
  - split; reflexivity.
  - assert (E0 : sub_go (Plus (Cls is_space)) (lit " ") 0 prev (c :: s) =
                 squeeze false (c :: s)).
    { cbn [sub_go]. rewrite match_at_plus_cls. cbn [squeeze].
      destruct (is_space c).
      - destruct (IH (Some c)) as [-> _]. reflexivity.
      - destruct (IH (Some c)) as [_ ->]. reflexivity. }
    split; [|exact E0].
    cbn [take_while squeeze]. destruct (is_space c) eqn:Ec.
    + cbn [length sub_go]. now destruct (IH (Some c)) as [-> _].
    + cbn [length]. rewrite E0. cbn [squeeze]. now rewrite Ec.
Qed.

Lemma sub_ws (s : str) : sub ws_re (lit " ") s = squeeze false s.
Proof. apply sub_go_ws. Qed.

Lemma sub_special (s : str) : sub special_re (lit " ") s = scrub s.
Proof.
  unfold sub, special_re, scrub. generalize (@None ascii).
  induction s as [|c s IH]; intros prev; [reflexivity|].
  cbn [sub_go map]. rewrite match_at_cls.
  destruct (kept c); cbn [negb]; now rewrite IH.
Qed.

(** ** Whitespace *)

Lemma space_is_space : is_space " " = true.
Proof. reflexivity. Qed.

Lemma kept_space (c : ascii) : is_space c = true -> kept c = true.
Proof. unfold kept. intros ->. now rewrite orb_true_r. Qed.

Lemma squeeze_head (s : str) : head_space (squeeze true s) = false.
Proof.
  induction s as [|c s IH]; [reflexivity|]. cbn [squeeze].
  destruct (is_space c) eqn:E; [exact IH|]. exact E.
Qed.

Lemma squeeze_spaced (s : str) : forall b, spaced (squeeze b s) = true.
Proof.
  induction s as [|c s IH]; intros b; [reflexivity|]. cbn [squeeze].
  destruct (is_space c) eqn:E.
  - destruct b; [apply IH|]. cbn [spaced]. rewrite space_is_space, squeeze_head, IH.
    reflexivity.
  - cbn [spaced]. now rewrite E, IH.
Qed.

Lemma squeeze_kept (s : str) : forall b,
  Forall (fun c => kept c = true) s -> Forall (fun c => kept c = true) (squeeze b s).
Proof.
  induction s as [|c s IH]; intros b H; [constructor|]. inversion_clear H as [|? ? Hc Hs].
  cbn [squeeze]. destruct (is_space c); [destruct b|]; auto.
Qed.

(** On a text whose whitespace is single spaces the collapse changes nothing. *)
Lemma squeeze_fixed (s : str) : spaced s = true -> squeeze false s = s.
Proof.
  induction s as [|c s IH]; [reflexivity|]. cbn [spaced squeeze].
  destruct (is_space c) eqn:E.
  - rewrite !andb_true_iff, negb_true_iff. intros [[Hc Hh] Hs].
    apply Ascii.eqb_eq in Hc. subst c. f_equal.
    destruct s as [|d s]; [reflexivity|]. cbn [head_space] in Hh.
    specialize (IH Hs). cbn [squeeze] in *. rewrite Hh in *. exact IH.
  - cbn [andb]. intros Hs. now rewrite IH.
Qed.

Lemma scrub_kept (s : str) : Forall (fun c => kept c = true) (scrub s).
Proof.
  unfold scrub. induction s as [|c s IH]; constructor; [|exact IH].
  destruct (kept c) eqn:E; [exact E | reflexivity].
Qed.

Lemma scrub_fixed (s : str) : Forall (fun c => kept c = true) s -> scrub s = s.
Proof.
  unfold scrub. induction 1 as [|c s Hc _ IH]; [reflexivity|]. cbn [map].
  now rewrite Hc, IH.
Qed.

(** ** Stripping *)

Lemma drop_while_kept (s : str) :
  Forall (fun c => kept c = true) s -> Forall (fun c => kept c = true) (lstrip s).
Proof.
  unfold lstrip. induction 1 as [|c s Hc Hs IH]; [constructor|]. cbn [drop_while].
  destruct (is_space c); [exact IH | now constructor].
Qed.

Lemma lstrip_spaced (s : str) : spaced s = true -> spaced (lstrip s) = true.
Proof.
  unfold lstrip. induction s as [|c s IH]; [reflexivity|]. cbn [drop_while].
  destruct (is_space c) eqn:E; [|auto]. cbn [spaced]. rewrite E.
  rewrite !andb_true_iff. intros [_ Hs]. auto.
Qed.

Lemma lstrip_head (s : str) : head_space (lstrip s) = false.
Proof.
  unfold lstrip. induction s as [|c s IH]; [reflexivity|]. cbn [drop_while].
  destruct (is_space c) eqn:E; [exact IH | exact E].
Qed.

Lemma lstrip_fixed (s : str) : head_space s = false -> lstrip s = s.
Proof. destruct s as [|c s]; [reflexivity|]. unfold lstrip. cbn. now intros ->. Qed.

Lemma rstrip_cons (c : ascii) (s : str) :
  rstrip (c :: s) = [] \/ rstrip (c :: s) = c :: rstrip s.
Proof.
  cbn [rstrip]. destruct (rstrip s) eqn:E; [|now right].
  destruct (is_space c); [now left | now right].
Qed.

Lemma rstrip_kept (s : str) :
  Forall (fun c => kept c = true) s -> Forall (fun c => kept c = true) (rstrip s).
Proof.
  induction 1 as [|c s Hc Hs IH]; [constructor|].
  destruct (rstrip_cons c s) as [-> | ->]; [constructor | now constructor].
Qed.

Lemma rstrip_head (s : str) : head_space s = false -> head_space (rstrip s) = false.
Proof.
  destruct s as [|c s]; [reflexivity|].
  destruct (rstrip_cons c s) as [-> | ->]; [reflexivity | exact (fun H => H)].
Qed.

Lemma rstrip_head_space (s : str) : head_space (rstrip s) = true -> head_space s = true.
Proof.
  destruct s as [|c s]; [discriminate|].
  destruct (rstrip_cons c s) as [-> | ->]; [discriminate | exact (fun H => H)].
Qed.

Lemma rstrip_spaced (s : str) : spaced s = true -> spaced (rstrip s) = true.
Proof.
  induction s as [|c s IH]; [reflexivity|].
  destruct (rstrip_cons c s) as [-> | ->]; [reflexivity|]. cbn [spaced].
  rewrite !andb_true_iff. intros [Hc Hs]. split; [|auto].
  destruct (is_space c); [|reflexivity].
  rewrite andb_true_iff, negb_true_iff in *. destruct Hc as [Hc Hh]. split; [assumption|].
  destruct (head_space (rstrip s)) eqn:E; [|reflexivity].
  apply rstrip_head_space in E. congruence.
Qed.

Lemma rstrip_idem (s : str) : rstrip (rstrip s) = rstrip s.
Proof.
  induction s as [|c s IH]; [reflexivity|]. cbn [rstrip].
  destruct (rstrip s) as [|d r] eqn:E.
  - destruct (is_space c) eqn:Ec; [reflexivity|]. cbn [rstrip]. now rewrite Ec.
  - cbn [rstrip]. cbn [rstrip] in IH. rewrite IH. reflexivity.
Qed.

(** A text that ends with a character other than whitespace. *)
Lemma rstrip_app_fixed (a b : str) : b <> [] -> rstrip b = b -> rstrip (a ++ b) = a ++ b.
Proof.
  intros Hb Eb. induction a as [|c a IH]; [exact Eb|]. cbn [app rstrip]. rewrite IH.
  destruct (a ++ b) eqn:E; [|reflexivity].
  apply app_eq_nil in E. tauto.
Qed.

(** ** The shape of every cleaned text *)

Lemma firstn_kept (n : nat) (s : str) :
  Forall (fun c => kept c = true) s -> Forall (fun c => kept c = true) (firstn n s).
Proof.
  intros H. revert n. induction H as [|c s Hc Hs IH]; intros [|n]; cbn; auto.
Qed.

Lemma spaced_firstn_app (p : str) : spaced p = true -> head_space p = false ->
  forall s n, spaced s = true -> spaced (firstn n s ++ p) = true.
Proof.
  intros Hp Hh. induction s as [|c s IH]; intros n Hs.
  - now rewrite firstn_nil.
  - destruct n as [|n]; [exact Hp|]. cbn [firstn app spaced] in *.
    rewrite !andb_true_iff in *. destruct Hs as [Hc Hs]. split; [|auto].
    destruct (is_space c); [|reflexivity].
    rewrite andb_true_iff, negb_true_iff in *. destruct Hc as [Hc Hc']. split; [assumption|].
    destruct n as [|n]; [exact Hh|]. destruct s; [exact Hh | exact Hc'].
Qed.

Lemma cap_shape (w : str) :
  Forall (fun c => kept c = true) w -> spaced w = true ->
  lstrip w = w -> rstrip w = w ->
  cleaned (if (500 <? length w)%nat then firstn 500 w ++ lit "..." else w).
Proof.
  intros Hk Hs Hl Hr. destruct (Nat.ltb_spec 500 (length w)) as [Hlen|Hlen].
  - assert (L : length (firstn 500 w) = 500) by (rewrite length_firstn; lia).
    constructor.
    + apply Forall_app. split; [now apply firstn_kept|]. repeat constructor.
    + now apply spaced_firstn_app.
    + apply lstrip_fixed. destruct w as [|c w]; [cbn in Hlen; lia|].
      change (head_space (c :: w) = false). rewrite <- Hl. apply lstrip_head.
    + now apply rstrip_app_fixed.
    + intros _. rewrite firstn_app, L, Nat.sub_diag, firstn_O, app_nil_r.
      rewrite <- L at 1. now rewrite firstn_all.
  - constructor; auto. lia.
Qed.

Lemma strip_shape (x : str) :
  Forall (fun c => kept c = true) x -> spaced x = true ->
  let w := strip x in
  Forall (fun c => kept c = true) w /\ spaced w = true /\ lstrip w = w /\ rstrip w = w.
Proof.
  intros Hk Hs w. subst w. unfold strip. repeat split.
  - now apply rstrip_kept, drop_while_kept.
  - now apply rstrip_spaced, lstrip_spaced.
  - apply lstrip_fixed, rstrip_head, lstrip_head.
  - apply rstrip_idem.
Qed.

End CleanFacts.

Module Cleaning.
Import Py Re Shape ReFacts CleanFacts Log SemanticSearch.

Lemma kept_absent (c : ascii) (s : str) :
  kept c = false -> Forall (fun x => kept x = true) s -> ~ In c s.
Proof.
  intros Hc Hs Hin. rewrite Forall_forall in Hs. apply Hs in Hin. congruence.
Qed.

Lemma spaced_only_spaces (s : str) (c : ascii) :
  spaced s = true -> In c s -> is_space c = true -> c = " "%char.
Proof.
  induction s as [|x s IH]; [intros _ []|]. cbn [spaced].
  rewrite andb_true_iff. intros [Hx Hs] [->|Hin] Hc; [|auto].
  rewrite Hc, andb_true_iff in Hx. now apply Ascii.eqb_eq.
Qed.

Lemma split_no_sep (sep : ascii) (s : str) : ~ In sep s -> split sep s = [s].
Proof.
  induction s as [|c s IH]; [reflexivity|]. intros H. cbn [split].
  destruct (Ascii.eqb_spec c sep) as [->|_]; [elim H; now left|].
  rewrite IH; [reflexivity|]. intros Hin; apply H; now right.
Qed.

Section Cleaner.
Variable html_unescape : str -> str.

(** The library function returns a text without an ampersand unchanged. *)
Hypothesis unescape_without_amp : forall s, ~ In "&"%char s -> html_unescape s = s.

(** Every output of the cleaner has the cleaned shape. *)
Lemma clean_email_body_cleaned (body : str) :
  cleaned (clean_email_body html_unescape body).
Proof.
  unfold clean_email_body. destruct (is_empty body).
  - constructor; try reflexivity; [constructor | cbn; lia].
  - cbv zeta. rewrite sub_special, sub_ws.
    match goal with |- context [scrub ?x] => generalize x end. intros x.
    destruct (strip_shape (squeeze false (scrub x))) as (Hk & Hs & Hl & Hr).
    + apply squeeze_kept, scrub_kept.
    + apply squeeze_spaced.
    + now apply cap_shape.
Qed.

(** On a text of that shape in which the footer pattern matches nowhere,
    every step of the cleaner is the identity. *)
Lemma clean_email_body_fixed (t : str) :
  cleaned t -> search footer_re None t = false ->
  clean_email_body html_unescape t = t.
Proof.
  intros [Hk Hs Hl Hr Hcap] Hfoot. unfold clean_email_body.
  destruct t as [|c0 t0] eqn:Et; [reflexivity|]. rewrite <- Et in *.
  assert (Hne : is_empty t = false) by now rewrite Et.
  rewrite Hne. cbv zeta.
  rewrite unescape_without_amp by (now apply kept_absent).
  rewrite (sub_must "<" tag_re) by (reflexivity || now apply kept_absent).
  rewrite (sub_must "/" url_re) by (reflexivity || now apply kept_absent).
  rewrite (sub_must "@" email_re) by (reflexivity || now apply kept_absent).
  rewrite (sub_ws t), (squeeze_fixed t Hs).
  rewrite (sub_no_match footer_re (lit "") t Hfoot).
  rewrite split_no_sep.
  2:{ intros Hin. apply (spaced_only_spaces t _ Hs) in Hin; [discriminate | reflexivity]. }
  assert (Hstrip : strip t = t) by (unfold strip; now rewrite Hl, Hr).
  cbn [filter]. rewrite Hstrip.
  assert (Hgt : startswith (lit ">") t = false).
  { rewrite Et. change (Ascii.eqb ">" c0 && true = false).
    destruct (Ascii.eqb_spec ">"%char c0) as [<-|_]; [|reflexivity].
    rewrite Et in Hk. inversion_clear Hk as [|? ? Hc _]. discriminate. }
  rewrite Hgt. cbn [negb join].
  rewrite (sub_special t), (scrub_fixed t Hk), (sub_ws t), (squeeze_fixed t Hs), Hstrip.
  destruct (Nat.ltb_spec 500 (length t)); [now apply Hcap | reflexivity].
Qed.

(** C8, as the code has it. Cleaning a cleaned text again changes nothing
    provided the footer pattern (the boilerplate markers) matches nowhere in
    the cleaned text: entity decoding, tag, URL and address removal,
    whitespace collapse, character stripping and the 500-character cap with
    its ellipsis are all stable under repetition. *)
Theorem clean_email_body_idempotent_without_marker (body : str)
  (Hmarker : search footer_re None (clean_email_body html_unescape body) = false) :
  clean_email_body html_unescape (clean_email_body html_unescape body) =
  clean_email_body html_unescape body.
Proof.
  apply clean_email_body_fixed; [apply clean_email_body_cleaned | exact Hmarker].
Qed.

End Cleaner.

Import Sample.

Lemma entity_at_plain (c : ascii) (s : str) : c <> "&"%char -> entity_at (c :: s) = None.
Proof.
  intros Hc. assert (E : Ascii.eqb "&" c = false).
  { destruct (Ascii.eqb_spec "&"%char c); congruence. }
  unfold entity_at, entities.
  cbn [find fst startswith lit list_ascii_of_string]. now rewrite E.
Qed.

(** The stand-in has the property assumed of the library function. *)
Lemma unescape_plain (s : str) : ~ In "&"%char s -> unescape s = s.
Proof.
  unfold unescape. induction s as [|c s IH]; [reflexivity|]. intros H.
  cbn [unescape_go]. rewrite entity_at_plain by (intros ->; apply H; now left).
  rewrite IH; [reflexivity|]. intros Hin; apply H; now right.
Qed.

(** A text with tags, a URL and runs of spaces, cleaned twice. *)
Lemma clean_email_body_idempotent_without_marker_witness :
  search footer_re None
    (clean_email_body unescape (lit "  Hello,   <b>world</b>!  see http://example.org/x "))
  = false /\
  clean_email_body unescape
    (clean_email_body unescape (lit "  Hello,   <b>world</b>!  see http://example.org/x ")) =
  clean_email_body unescape (lit "  Hello,   <b>world</b>!  see http://example.org/x ").
Proof.
  split; [vm_compute; reflexivity|].
  apply (clean_email_body_idempotent_without_marker unescape unescape_plain).
  vm_compute; reflexivity.
Defined.

(** C8 fails on the code: stripping the asterisk creates the marker
    [best regards], which the second pass then truncates at. *)
Lemma clean_email_body_not_idempotent :
  clean_email_body unescape (lit "best*regards") = lit "best regards" /\
  clean_email_body unescape (clean_email_body unescape (lit "best*regards")) = [] /\
  clean_email_body unescape (clean_email_body unescape (lit "best*regards")) <>
  clean_email_body unescape (lit "best*regards").
Proof. repeat split; vm_compute; (reflexivity || discriminate). Defined.

(** C4 on the code. The whitespace collapse runs first and leaves no
    newline, so the split at newlines always yields the whole text as one
    line; on the failing input the quoted line is therefore not recognised
    and its words reach the output. *)
Theorem quoted_reply_survives :
  (forall text,
     split "010" (sub footer_re (lit "") (sub ws_re (lit " ") text)) =
     [sub footer_re (lit "") (sub ws_re (lit " ") text)]) /\
  split "010" (sub ws_re (lit " ") (lit "hello" ++ ["010"%char] ++ lit "> quoted text")) =
    [lit "hello > quoted text"] /\
  clean_email_body unescape (lit "hello" ++ ["010"%char] ++ lit "> quoted text") =
    lit "hello quoted text".
Proof.
  split; [|split; vm_compute; reflexivity].
  intros text. apply split_no_sep. unfold sub at 1. intros Hin.
  apply sub_go_chars in Hin. destruct Hin as [[]|Hin].
  rewrite sub_ws in Hin.
  apply (spaced_only_spaces _ _ (squeeze_spaced text false)) in Hin;
    [discriminate | reflexivity].
Qed.

End Cleaning.

Module SortFacts.
Import Py PyFacts.

Section Slices.
Context {A : Type}.

Lemma firstn_in (n : nat) (l : list A) (x : A) : In x (firstn n l) -> In x l.
Proof.
  revert n. induction l as [|y l IH]; intros [|n]; simpl; try tauto.
  intros [->|H]; eauto.
Qed.

Lemma slice_to_firstn (k : Z) (l : list A) : exists n, slice_to k l = firstn n l.
Proof. unfold slice_to. destruct (k <? 0)%Z; eauto. Qed.

Lemma slice_to_length (k : Z) (l : list A) :
  (0 <= k)%Z -> (Z.of_nat (length (slice_to k l)) <= k)%Z.
Proof.
  intros Hk. unfold slice_to. destruct (Z.ltb_spec k 0); [lia|].
  rewrite length_firstn. lia.
Qed.

Lemma slice_to_incl (k : Z) (l : list A) (x : A) : In x (slice_to k l) -> In x l.
Proof.
  destruct (slice_to_firstn k l) as [n ->]. apply firstn_in.
Qed.

End Slices.

(** ** Orders on lists *)

Section Orders.
Context {A : Type}.

Lemma Sorted_strong_in (R : A -> A -> Prop) (l : list A) :
  (forall a b c, In a l -> In b l -> In c l -> R a b -> R b c -> R a c) ->
  Sorted R l -> StronglySorted R l.
Proof.
  intros T S. induction S as [|x l S IH H]; [constructor|].
  assert (IH' : StronglySorted R l).
  { apply IH. intros a b c Ha Hb Hc. apply T; now right. }
  constructor; [exact IH'|].
  destruct H as [|y l' Hxy]; [constructor|].
  inversion_clear IH' as [|? ? _ Hy]. constructor; [exact Hxy|].
  rewrite Forall_forall in *. intros z Hz.
  apply (T x y z); [now left | right; now left | right; now right | exact Hxy | now apply Hy].
Qed.

Lemma StronglySorted_weaken_in (R R' : A -> A -> Prop) (l : list A) :
  (forall a b, In a l -> In b l -> R a b -> R' a b) ->
  StronglySorted R l -> StronglySorted R' l.
Proof.
  intros W S. induction S as [|x l S IH H]; [constructor|].
  constructor.
  - apply IH. intros a b Ha Hb. apply W; now right.
  - rewrite Forall_forall in *. intros y Hy. apply W; [now left | now right | now apply H].
Qed.

Lemma StronglySorted_snoc (R : A -> A -> Prop) (l : list A) (x : A) :
  StronglySorted R l -> Forall (fun y => R y x) l -> StronglySorted R (l ++ [x]).
Proof.
  intros S. induction S as [|y l S IH H]; intros F; cbn [app].
  - repeat constructor.
  - inversion_clear F as [|? ? Fy Fl]. constructor; [now apply IH|].
    apply Forall_app. split; [exact H | now constructor].
Qed.

Lemma StronglySorted_rev (R : A -> A -> Prop) (l : list A) :
  StronglySorted R l -> StronglySorted (fun a b => R b a) (rev l).
Proof.
  intros S. induction S as [|x l S IH H]; cbn [rev]; [constructor|].
  apply StronglySorted_snoc; [exact IH|].
  rewrite Forall_forall in *. intros y Hy. apply H. now apply in_rev.
Qed.

Lemma StronglySorted_insert (R : A -> A -> Prop) (f s : list A) (p : A) :
  StronglySorted R (f ++ s) ->
  Forall (fun z => R z p) f -> Forall (fun z => R p z) s ->
  StronglySorted R (f ++ p :: s).
Proof.
  induction f as [|x f IH]; cbn [app]; intros S Ff Fs.
  - now constructor.
  - inversion_clear S as [|? ? S' Hx]. inversion_clear Ff as [|? ? Fx Ff'].
    constructor; [now apply IH|].
    apply Forall_app in Hx. destruct Hx as [Hf Hs].
    apply Forall_app. split; [exact Hf | now constructor].
Qed.

End Orders.

(** ** The sort *)

Section Sorting.
Context {A : Type}.
Variable key : A -> float.

Local Abbreviation asc := (fun a b : A => (key a <=? key b)%float = true).
Local Abbreviation below pivot := (fun y : A => islt key pivot y = false).
Local Abbreviation above pivot := (fun y : A => islt key pivot y = true).

Lemma ltb_leb (a b : float) :
  not_nan a -> not_nan b -> (a <? b)%float = true -> (a <=? b)%float = true.
Proof.
  intros Ha Hb E. rewrite ltb_negb_leb in E by assumption.
  destruct (a <=? b)%float eqn:E'; [reflexivity|]. exfalso.
  rewrite negb_true_iff in E. revert E E'. rewrite !leb_spec. unfold SFleb.
  apply not_nan_spec in Ha, Hb. rewrite !SFcompare_key by assumption.
  rewrite (lex3_antisym (sf_key (Prim2SF a)) (sf_key (Prim2SF b))).
  destruct (lex3 (sf_key (Prim2SF a)) (sf_key (Prim2SF b))); discriminate.
Qed.

Lemma lt_false (x y : A) :
  not_nan (key x) -> not_nan (key y) -> islt key x y = false -> (key y <=? key x)%float = true.
Proof.
  intros Hx Hy E. unfold islt in E. rewrite ltb_negb_leb in E by assumption.
  now apply negb_false_iff in E.
Qed.

Lemma lt_true (x y : A) :
  not_nan (key x) -> not_nan (key y) -> islt key x y = true ->
  (key x <=? key y)%float = true /\ (key y <=? key x)%float = false.
Proof.
  intros Hx Hy E. split; [now apply ltb_leb|].
  unfold islt in E. rewrite ltb_negb_leb in E by assumption. now apply negb_true_iff in E.
Qed.

Lemma lt_of_leb (x y : A) :
  not_nan (key x) -> not_nan (key y) -> (key y <=? key x)%float = false -> islt key x y = true.
Proof. intros Hx Hy E. unfold islt. rewrite ltb_negb_leb by assumption. now rewrite E. Qed.

Lemma lt_of_leb_true (x y : A) :
  not_nan (key x) -> not_nan (key y) -> (key y <=? key x)%float = true -> islt key x y = false.
Proof. intros Hx Hy E. unfold islt. rewrite ltb_negb_leb by assumption. now rewrite E. Qed.

Lemma comparable_perm (l l' : list A) : Permutation l l' -> comparable key l -> comparable key l'.
Proof. intros P. unfold comparable. now rewrite P. Qed.

Lemma comparable_in (l : list A) (x : A) : comparable key l -> In x l -> not_nan (key x).
Proof. unfold comparable. rewrite Forall_forall. auto. Qed.

(** *** The result is a permutation, whatever the keys are *)

Lemma run_from_app (descending : bool) (prev : A) (l : list A) :
  fst (run_from key descending prev l) ++ snd (run_from key descending prev l) = l.
Proof.
  revert prev. induction l as [|x l IH]; intros prev; cbn [run_from]; [reflexivity|].
  destruct (Bool.eqb (islt key x prev) descending); [|reflexivity].
  specialize (IH x). destruct (run_from key descending x l) as [run rest].
  cbn [fst snd app] in *. now f_equal.
Qed.

Lemma count_run_app (l : list A) :
  fst (fst (count_run key l)) ++ snd (count_run key l) = l.
Proof.
  destruct l as [|x [|y l]]; try reflexivity. cbn [count_run]. cbv zeta.
  pose proof (run_from_app (islt key y x) y l) as H.
  destruct (run_from key (islt key y x) y l) as [run rest]. cbn [fst snd app] in *.
  now rewrite H.
Qed.

Lemma insort_perm (a : list A) (pivot : A) : Permutation (insort key a pivot) (pivot :: a).
Proof.
  unfold insort. cbv zeta. symmetry.
  rewrite <- (firstn_skipn (bisect key (length a) pivot a 0 (length a)) a) at 1.
  apply Permutation_middle.
Qed.

Lemma binarysort_perm (sorted rest : list A) :
  Permutation (binarysort key sorted rest) (sorted ++ rest).
Proof.
  unfold binarysort. revert sorted. induction rest as [|p rest IH]; intros sorted; cbn [fold_left].
  - now rewrite app_nil_r.
  - rewrite IH, insort_perm. cbn [app]. apply Permutation_middle.
Qed.

Lemma sort_desc_perm (l : list A) : Permutation (sort_desc key l) l.
Proof.
  unfold sort_desc. pose proof (count_run_app (rev l)) as H.
  destruct (count_run key (rev l)) as [[run descending] rest]. cbn [fst snd] in H.
  rewrite <- Permutation_rev, binarysort_perm.
  rewrite (Permutation_rev l), <- H. apply Permutation_app_tail.
  destruct descending; [symmetry; apply Permutation_rev | reflexivity].
Qed.

Lemma sort_desc_length (l : list A) : length (sort_desc key l) = length l.
Proof. apply Permutation_length, sort_desc_perm. Qed.

Lemma sort_desc_in (x : A) (l : list A) : In x (sort_desc key l) <-> In x l.
Proof.
  split; apply Permutation_in; [apply sort_desc_perm | symmetry; apply sort_desc_perm].
Qed.

(** *** The first run *)

Lemma run_from_sorted (descending : bool) (prev : A) (l : list A) :
  Sorted (fun a b => islt key b a = descending) (prev :: fst (run_from key descending prev l)).
Proof.
  revert prev. induction l as [|x l IH]; intros prev; cbn [run_from]; [repeat constructor|].
  destruct (Bool.eqb (islt key x prev) descending) eqn:E; [|repeat constructor].
  specialize (IH x). destruct (run_from key descending x l) as [run rest]. cbn [fst] in *.
  constructor; [exact IH|]. constructor. now apply eqb_prop.
Qed.

Lemma count_run_sorted (l : list A) :
  Sorted (fun a b => islt key b a = snd (fst (count_run key l))) (fst (fst (count_run key l))).
Proof.
  destruct l as [|x [|y l]]; [constructor | repeat constructor |].
  cbn [count_run]. cbv zeta.
  pose proof (run_from_sorted (islt key y x) y l) as H.
  destruct (run_from key (islt key y x) y l) as [run rest]. cbn [fst snd] in *.
  constructor; [exact H|]. now constructor.
Qed.

(** An ascending run of comparable keys is in order. *)
Lemma ascending_run (l : list A) :
  comparable key l -> Sorted (fun a b => islt key b a = false) l -> StronglySorted asc l.
Proof.
  intros C S. apply (StronglySorted_weaken_in (fun a b => islt key b a = false)).
  - intros a b Ha Hb. apply lt_false; eapply comparable_in; eauto.
  - apply Sorted_strong_in; [|exact S].
    intros a b c Ha Hb Hc H1 H2.
    pose proof (comparable_in _ _ C Ha) as Na. pose proof (comparable_in _ _ C Hb) as Nb.
    pose proof (comparable_in _ _ C Hc) as Nc.
    apply lt_of_leb_true; try assumption.
    apply (leb_trans _ (key b)); apply lt_false; assumption.
Qed.

(** A descending run of comparable keys descends strictly. *)
Lemma descending_run (l : list A) :
  comparable key l -> Sorted (fun a b => islt key b a = true) l ->
  StronglySorted (fun a b => islt key b a = true) l.
Proof.
  intros C S. apply Sorted_strong_in; [|exact S].
  intros a b c Ha Hb Hc H1 H2.
  pose proof (comparable_in _ _ C Ha) as Na. pose proof (comparable_in _ _ C Hb) as Nb.
  pose proof (comparable_in _ _ C Hc) as Nc.
  destruct (lt_true _ _ Nb Na H1) as [L1 G1]. destruct (lt_true _ _ Nc Nb H2) as [L2 G2].
  apply lt_of_leb; try assumption.
  destruct (key a <=? key c)%float eqn:E; [|reflexivity].
  rewrite (leb_trans _ _ _ E L2) in G1. discriminate.
Qed.

Lemma descending_run_rev (l : list A) :
  comparable key l -> StronglySorted (fun a b => islt key b a = true) l ->
  StronglySorted asc (rev l).
Proof.
  intros C S. apply StronglySorted_rev in S.
  revert S. apply StronglySorted_weaken_in. intros a b Ha Hb H.
  apply in_rev in Ha, Hb. apply lt_true in H; [tauto | |]; eapply comparable_in; eauto.
Qed.

(** In a strictly descending run no two elements have the same key. *)
Lemma with_key_strict (v : float) (l : list A) :
  StronglySorted (fun a b => islt key b a = true) l -> length (with_key key v l) <= 1.
Proof.
  intros S. induction S as [|x l S IH H]; [cbn; lia|].
  unfold with_key in *. cbn [filter]. destruct (key x =? v)%float eqn:Ex; [|exact IH].
  assert (E : filter (fun y => (key y =? v)%float) l = []).
  { clear IH S. induction l as [|y l IHl]; [reflexivity|]. cbn [filter].
    inversion_clear H as [|? ? Hy Hl]. destruct (key y =? v)%float eqn:Ey; [|now apply IHl].
    unfold islt in Hy. rewrite (eqb_eqb_ltb _ _ _ Ey Ex) in Hy. discriminate. }
  rewrite E. cbn. lia.
Qed.

Lemma with_key_app (v : float) (l1 l2 : list A) :
  with_key key v (l1 ++ l2) = with_key key v l1 ++ with_key key v l2.
Proof. apply filter_app. Qed.

Lemma with_key_rev (v : float) (l : list A) :
  with_key key v (rev l) = rev (with_key key v l).
Proof.
  unfold with_key. induction l as [|x l IH]; [reflexivity|]. cbn [rev filter].
  rewrite filter_app, IH. cbn [filter]. destruct (key x =? v)%float; cbn [rev].
  - reflexivity.
  - now rewrite app_nil_r.
Qed.

Lemma with_key_rev_strict (v : float) (l : list A) :
  StronglySorted (fun a b => islt key b a = true) l ->
  with_key key v (rev l) = with_key key v l.
Proof.
  intros S. rewrite with_key_rev. pose proof (with_key_strict v l S) as H.
  destruct (with_key key v l) as [|x [|y w]]; try reflexivity. cbn in H. lia.
Qed.

(** *** The binary search *)

Lemma sorted_nth (a : list A) (p : nat) (y : A) :
  comparable key a -> StronglySorted asc a -> nth_error a p = Some y ->
  Forall (fun z => (key z <=? key y)%float = true) (firstn (p + 1) a) /\
  Forall (fun z => (key y <=? key z)%float = true) (skipn p a).
Proof.
  intros C S. revert p. induction S as [|x a S IH H]; intros p Hp.
  - destruct p; discriminate.
  - inversion_clear C as [|? ? Nx C']. destruct p as [|p]; cbn [nth_error] in Hp.
    + injection Hp as <-. cbn [Nat.add firstn skipn]. split.
      * constructor; [now apply leb_refl | constructor].
      * constructor; [now apply leb_refl | exact H].
    + destruct (IH C' p Hp) as [F1 F2]. cbn [Nat.add firstn skipn]. split; [|exact F2].
      constructor; [|exact F1].
      rewrite Forall_forall in H. apply H. eapply nth_error_In; eauto.
Qed.

Lemma bisect_spec (pivot : A) (a : list A) :
  comparable key (pivot :: a) -> StronglySorted asc a ->
  forall fuel l r, l <= r <= length a -> r - l <= fuel ->
    Forall (below pivot) (firstn l a) -> Forall (above pivot) (skipn r a) ->
    Forall (below pivot) (firstn (bisect key fuel pivot a l r) a) /\
    Forall (above pivot) (skipn (bisect key fuel pivot a l r) a).
Proof.
  intros C S. inversion_clear C as [|? ? Np Ca].
  induction fuel as [|fuel IH]; intros l r Hlr Hf Fl Fr; cbn [bisect].
  - assert (l = r) by lia. subst r. now split.
  - destruct (Nat.ltb_spec l r) as [Hlt|Hge].
    2:{ assert (l = r) by lia. subst r. now split. }
    assert (Hd : (r - l) / 2 < r - l) by (apply Nat.div_lt; lia).
    set (p := l + (r - l) / 2) in *.
    destruct (nth_error a p) as [y|] eqn:Ep.
    2:{ apply nth_error_None in Ep. lia. }
    destruct (sorted_nth a p y Ca S Ep) as [F1 F2].
    assert (Ny : not_nan (key y)) by (eapply comparable_in; [exact Ca | eapply nth_error_In; eauto]).
    destruct (islt key pivot y) eqn:Ey.
    + apply IH; [lia | lia | exact Fl |].
      rewrite Forall_forall in F2 |- *. intros z Hz.
      assert (Nz : not_nan (key z)).
      { eapply comparable_in; [exact Ca|]. rewrite <- (firstn_skipn p a). apply in_or_app. now right. }
      destruct (lt_true _ _ Np Ny Ey) as [_ G]. apply lt_of_leb; try assumption.
      destruct (key z <=? key pivot)%float eqn:E; [|reflexivity].
      rewrite (leb_trans _ _ _ (F2 z Hz) E) in G. discriminate.
    + apply IH; [lia | lia | | exact Fr].
      rewrite Forall_forall in F1 |- *. intros z Hz.
      assert (Nz : not_nan (key z)).
      { eapply comparable_in; [exact Ca|]. eapply firstn_in; eauto. }
      apply lt_of_leb_true; try assumption.
      eapply leb_trans; [apply F1, Hz | now apply lt_false].
Qed.

Lemma insort_spec (a : list A) (pivot : A) :
  comparable key (pivot :: a) -> StronglySorted asc a ->
  exists f s, a = f ++ s /\ insort key a pivot = f ++ pivot :: s /\
    Forall (below pivot) f /\ Forall (above pivot) s.
Proof.
  intros C S. unfold insort. cbv zeta.
  destruct (bisect_spec pivot a C S (length a) 0 (length a)) as [F1 F2].
  - lia.
  - lia.
  - constructor.
  - rewrite skipn_all. constructor.
  - exists (firstn (bisect key (length a) pivot a 0 (length a)) a),
           (skipn (bisect key (length a) pivot a 0 (length a)) a).
    repeat split; [symmetry; apply firstn_skipn | exact F1 | exact F2].
Qed.

Lemma insort_sorted (a : list A) (pivot : A) :
  comparable key (pivot :: a) -> StronglySorted asc a -> StronglySorted asc (insort key a pivot).
Proof.
  intros C S. destruct (insort_spec a pivot C S) as (f & s & Ea & -> & Ff & Fs).
  inversion_clear C as [|? ? Np Ca]. subst a.
  apply StronglySorted_insert; [exact S | |].
  - rewrite Forall_forall in Ff |- *. intros z Hz. apply lt_false; [exact Np | | now apply Ff].
    eapply comparable_in; [exact Ca | apply in_or_app; now left].
  - rewrite Forall_forall in Fs |- *. intros z Hz. apply lt_true; [exact Np | | now apply Fs].
    eapply comparable_in; [exact Ca | apply in_or_app; now right].
Qed.

Lemma with_key_insort (v : float) (a : list A) (pivot : A) :
  comparable key (pivot :: a) -> StronglySorted asc a ->
  with_key key v (insort key a pivot) = with_key key v (a ++ [pivot]).
Proof.
  intros C S. destruct (insort_spec a pivot C S) as (f & s & -> & -> & _ & Fs).
  unfold with_key. rewrite <- app_assoc, !filter_app. f_equal. cbn [filter app].
  destruct (key pivot =? v)%float eqn:Ep; [|now rewrite app_nil_r].
  assert (E : filter (fun x => (key x =? v)%float) s = []).
  { clear C S. induction s as [|z s IHs]; [reflexivity|]. inversion_clear Fs as [|? ? Hz Fs'].
    cbn [filter]. destruct (key z =? v)%float eqn:Ez; [|now apply IHs].
    unfold islt in Hz. rewrite (eqb_eqb_ltb _ _ _ Ep Ez) in Hz. discriminate. }
  now rewrite E.
Qed.

Lemma binarysort_sorted (rest sorted : list A) :
  comparable key (sorted ++ rest) -> StronglySorted asc sorted ->
  StronglySorted asc (binarysort key sorted rest) /\
  forall v, with_key key v (binarysort key sorted rest) = with_key key v (sorted ++ rest).
Proof.
  unfold binarysort. revert sorted.
  induction rest as [|p rest IH]; intros sorted C S; cbn [fold_left].
  - rewrite app_nil_r. now split.
  - assert (Cp : comparable key (p :: sorted)).
    { unfold comparable in *. apply Forall_app in C. destruct C as [C1 C2].
      inversion_clear C2. now constructor. }
    destruct (IH (insort key sorted p)) as [S' W].
    + eapply comparable_perm; [|exact C].
      rewrite insort_perm. cbn [app]. symmetry. apply Permutation_middle.
    + now apply insort_sorted.
    + split; [exact S'|]. intros v. rewrite W, with_key_app.
      rewrite with_key_insort by assumption.
      change (p :: rest) with ([p] ++ rest). now rewrite !with_key_app, app_assoc.
Qed.

(** *** On comparable keys the sort is the stable sort into descending
    order *)

Lemma sort_desc_stable (l : list A) :
  comparable key l ->
  StronglySorted (desc key) (sort_desc key l) /\
  forall v, with_key key v (sort_desc key l) = with_key key v l.
Proof.
  intros C. unfold sort_desc.
  pose proof (count_run_app (rev l)) as Happ. pose proof (count_run_sorted (rev l)) as Hrun.
  destruct (count_run key (rev l)) as [[run descending] rest]. cbn [fst snd] in Happ, Hrun.
  assert (Crev : comparable key (run ++ rest)).
  { rewrite Happ. eapply comparable_perm; [apply Permutation_rev | exact C]. }
  assert (Crun : comparable key run).
  { unfold comparable in *. now apply Forall_app in Crev. }
  set (first := if descending then rev run else run).
  assert (Hfirst : StronglySorted asc first /\ Permutation first run /\
                   forall v, with_key key v first = with_key key v run).
  { subst first. destruct descending.
    - pose proof (descending_run run Crun Hrun) as Hs. repeat split.
      + now apply descending_run_rev.
      + symmetry. apply Permutation_rev.
      + intros v. now apply with_key_rev_strict.
    - repeat split; [now apply ascending_run | reflexivity]. }
  destruct Hfirst as (Sf & Pf & Wf).
  destruct (binarysort_sorted rest first) as [S W].
  - eapply comparable_perm; [|exact Crev]. apply Permutation_app_tail. now symmetry.
  - exact Sf.
  - split.
    + apply StronglySorted_rev in S. exact S.
    + intros v. rewrite with_key_rev, W, with_key_app, Wf, <- with_key_app, Happ.
      rewrite with_key_rev. apply rev_involutive.
Qed.

Lemma sort_desc_sorted (l : list A) :
  comparable key l -> StronglySorted (desc key) (sort_desc key l).
Proof. intros C. now apply sort_desc_stable. Qed.

(** Stability: the elements of one key keep the order of the list. *)
Lemma with_key_sort (v : float) (l : list A) :
  comparable key l -> with_key key v (sort_desc key l) = with_key key v l.
Proof. intros C. now apply sort_desc_stable. Qed.

(** The head of a sorted list has the greatest key. *)
Lemma sorted_head_max (x : A) (l : list A) :
  not_nan (key x) -> StronglySorted (desc key) (x :: l) ->
  forall y, In y (x :: l) -> (key y <=? key x)%float = true.
Proof.
  intros Hx Hs y [<-|Hy]; [now apply leb_refl|].
  inversion_clear Hs as [|? ? _ Hall]. rewrite Forall_forall in Hall. now apply Hall.
Qed.

(** A prefix keeps order and, for every key, a prefix of its elements. *)
Lemma firstn_sorted (n : nat) (l : list A) :
  StronglySorted (desc key) l -> StronglySorted (desc key) (firstn n l).
Proof.
  intros Hs. revert n. induction Hs as [|x l Hs IH Hx]; intros [|n]; simpl; try constructor.
  - apply IH.
  - rewrite Forall_forall in *. intros y Hy. apply Hx. eapply firstn_in; eauto.
Qed.

Lemma with_key_firstn (v : float) (n : nat) (l : list A) :
  exists rest, with_key key v l = with_key key v (firstn n l) ++ rest.
Proof.
  revert n. induction l as [|x l IH]; intros [|n]; simpl.
  - now exists [].
  - now exists [].
  - now eexists.
  - destruct (IH n) as [rest Hr]. exists rest. unfold Py.with_key in *. simpl.
    destruct (key x =? v)%float; simpl; now rewrite <- Hr.
Qed.

End Sorting.

Section Unique.
Context {A : Type}.
Variable key : A -> float.

(** Sortedness and stability determine the result: two descending lists
    that list the elements of every key in the same order are equal. *)
Lemma stable_sorted_unique (l1 l2 : list A) :
  comparable key l1 -> comparable key l2 ->
  StronglySorted (desc key) l1 -> StronglySorted (desc key) l2 ->
  (forall v, with_key key v l1 = with_key key v l2) ->
  l1 = l2.
Proof.
  revert l2. induction l1 as [|x l1 IH]; intros l2 C1 C2 S1 S2 W.
  - destruct l2 as [|y l2]; [reflexivity|]. exfalso.
    inversion_clear C2 as [|? ? Ny _]. specialize (W (key y)).
    unfold with_key in W. cbn [filter] in W. rewrite (eqb_refl _ Ny) in W. discriminate.
  - inversion_clear C1 as [|? ? Nx C1']. inversion_clear S1 as [|? ? S1' M1].
    destruct l2 as [|y l2].
    { exfalso. specialize (W (key x)). unfold with_key in W. cbn [filter] in W.
      rewrite (eqb_refl _ Nx) in W. discriminate. }
    inversion_clear C2 as [|? ? Ny C2']. inversion_clear S2 as [|? ? S2' M2].
    assert (Hx : In x (y :: l2)).
    { assert (H : In x (with_key key (key x) (y :: l2))).
      { rewrite <- W. unfold with_key. cbn [filter]. rewrite (eqb_refl _ Nx). now left. }
      apply filter_In in H. tauto. }
    assert (Hy : In y (x :: l1)).
    { assert (H : In y (with_key key (key y) (x :: l1))).
      { rewrite W. unfold with_key. cbn [filter]. rewrite (eqb_refl _ Ny). now left. }
      apply filter_In in H. tauto. }
    assert (Exy : (key y =? key x)%float = true).
    { rewrite Forall_forall in M1, M2. apply leb_antisym.
      - destruct Hy as [<-|Hy]; [now apply leb_refl | now apply M1].
      - destruct Hx as [<-|Hx]; [now apply leb_refl | now apply M2]. }
    assert (x = y).
    { specialize (W (key x)). unfold with_key in W. cbn [filter] in W.
      rewrite (eqb_refl _ Nx), Exy in W. congruence. }
    subst y. f_equal. apply IH; try assumption.
    intros v. specialize (W v). unfold with_key in *. cbn [filter] in W.
    destruct (key x =? v)%float; congruence.
Qed.

(** So every stable sort into descending order, on comparable keys,
    returns what [sort_desc] returns, whatever its runs and merges are. *)
Lemma sort_desc_unique (l l' : list A) :
  comparable key l -> Permutation l' l ->
  StronglySorted (desc key) l' ->
  (forall v, with_key key v l' = with_key key v l) ->
  l' = sort_desc key l.
Proof.
  intros C P S W. apply stable_sorted_unique.
  - eapply comparable_perm; [symmetry; exact P | exact C].
  - eapply comparable_perm; [symmetry; apply sort_desc_perm | exact C].
  - exact S.
  - now apply sort_desc_sorted.
  - intros v. now rewrite with_key_sort by exact C.
Qed.
End Unique.

End SortFacts.

Module SearchFacts.
Import Py PyFacts SortFacts Log SemanticSearch.

Section Search.
Variable html_unescape : str -> str.
Variable self : SemanticSearchEngine.
Variable query : str.

Lemma for_each_embeddings (emails : list Email) (log : list str) :
  for_each (create_email_embedding html_unescape self) emails log =
  (map (fun e => Np.unit_vector (model self (combined_text html_unescape e))) emails,
   log ++ map (combined_text html_unescape) emails).
Proof.
  revert log. induction emails as [|e emails IH]; intros log; simpl.
  - unfold ret. now rewrite app_nil_r.
  - unfold bind, create_email_embedding, encode, ret at 1. simpl.
    rewrite IH. unfold ret. now rewrite <- app_assoc.
Qed.

Lemma combine_scores (emails : list Email) (q : Np.ndarray) :
  combine emails
    (compute_similarity q
       (map (fun e => Np.unit_vector (model self (combined_text html_unescape e))) emails)) =
  map (fun e => (e, Np.dot (Np.unit_vector (model self (combined_text html_unescape e))) q)) emails.
Proof.
  assert (E : forall l, compute_similarity q l = map (fun row => Np.dot row q) l)
    by (now intros []).
  rewrite E, map_map. induction emails as [|e emails IH]; simpl; [reflexivity|].
  now rewrite IH.
Qed.

(** The search run on a log: its result is a function of the scored
    corpus, and the log grows by the query and one text per document. *)
Lemma semantic_search_run (emails : list Email) (top_k : Z)
  (min_threshold : option float) (log : list str) :
  emails <> [] ->
  semantic_search html_unescape self query emails top_k min_threshold log =
  (match thresholded html_unescape self query emails (resolve self min_threshold) with
   | [] => match sort_desc snd (scored html_unescape self query emails) with
           | [] => []
           | _ :: _ => slice_to 1 (sort_desc snd (scored html_unescape self query emails))
           end
   | _ :: _ => slice_to top_k
                 (sort_desc snd
                    (thresholded html_unescape self query emails (resolve self min_threshold)))
   end,
   log ++ query :: map (combined_text html_unescape) emails).
Proof.
  intros Hne. destruct emails as [|e0 emails0]; [congruence|]. clear Hne.
  unfold semantic_search. cbv beta iota.
  remember (e0 :: emails0) as emails eqn:Eem. clear Eem.
  cbv beta iota zeta delta [bind create_query_embedding encode ret].
  rewrite for_each_embeddings. cbv beta iota zeta. rewrite combine_scores.
  unfold thresholded, resolve, scored, score, Np.unit_vector.
  cbv zeta. rewrite <- app_assoc. simpl app.
  match goal with |- context [filter ?f ?l] => destruct (filter f l) end; reflexivity.
Qed.

End Search.
End SearchFacts.

Module Ranking.
Import Py PyFacts SortFacts Log SemanticSearch SearchFacts.

Section Claims.
Variable html_unescape : str -> str.
Variable self : SemanticSearchEngine.
Variable query : str.


Lemma in_scored (emails : list Email) (es : Scored) :
  In es (scored html_unescape self query emails) <->
  exists e, In e emails /\ es = (e, score html_unescape self query e).
Proof.
  unfold scored. rewrite in_map_iff.
  split; intros (e & H1 & H2); exists e; auto.
Qed.

Lemma scored_length (emails : list Email) :
  length (scored html_unescape self query emails) = length emails.
Proof. apply length_map. Qed.

Lemma scored_comparable (emails : list Email) :
  (forall e, In e emails -> not_nan (score html_unescape self query e)) ->
  comparable snd (scored html_unescape self query emails).
Proof.
  intros H. apply Forall_forall. intros es Hes.
  apply in_scored in Hes. destruct Hes as (e & He & ->). now apply H.
Qed.

Lemma thresholded_nil (emails : list Email) (t : float) :
  (forall e, In e emails -> geb (score html_unescape self query e) t = false) ->
  thresholded html_unescape self query emails t = [].
Proof.
  intros H. unfold thresholded.
  induction emails as [|e emails IH]; simpl; [reflexivity|].
 rewrite (H e) by now left. apply IH. intros; apply H; now right.
Qed.

Lemma thresholded_in (emails : list Email) (t : float) (es : Scored) :
  In es (thresholded html_unescape self query emails t) ->
  In es (scored html_unescape self query emails) /\ geb (snd es) t = true.
Proof. unfold thresholded. now rewrite filter_In. Qed.

(** Every entry of a result is a document of the corpus with its score. *)
Lemma result_in_scored (emails : list Email) (top_k : Z) (min_threshold : option float)
  (es : Scored) :
  In es (result_of (semantic_search html_unescape self query emails top_k min_threshold)) ->
  In es (scored html_unescape self query emails).
Proof.
  unfold result_of. destruct emails as [|e0 emails0]; [intros []|].
  rewrite semantic_search_run by discriminate. cbn [fst].

  destruct (thresholded html_unescape self query (e0 :: emails0)
              (resolve self min_threshold)) eqn:Et.
  - destruct (sort_desc snd (scored html_unescape self query (e0 :: emails0))) eqn:Es; [intros []|].
    rewrite <- Es. intros H. apply slice_to_incl, sort_desc_in in H. exact H.
  - rewrite <- Et. intros H. apply slice_to_incl, sort_desc_in in H.
    now apply thresholded_in in H.
Qed.

(** C1, as the code has it. Fallback rule: when the corpus is not empty
    and no score reaches the threshold in force, the search returns exactly
    one entry, a document of the corpus with its score, whatever [top_k]
    is; when no score is NaN, no document of the corpus has a greater
    score than that entry. On the empty corpus the search returns the
    empty list. *)
Theorem fallback_rule (emails : list Email) (top_k : Z) (min_threshold : option float)
  (Hcorpus : emails <> [])
  (Hbelow : forall e, In e emails ->
     geb (score html_unescape self query e) (resolve self min_threshold) = false) :
  (exists e, In e emails /\
     result_of (semantic_search html_unescape self query emails top_k min_threshold) =
       [(e, score html_unescape self query e)] /\
     ((forall e', In e' emails -> not_nan (score html_unescape self query e')) ->
      forall e', In e' emails ->
        (score html_unescape self query e' <=? score html_unescape self query e)%float = true)) /\
  result_of (semantic_search html_unescape self query [] top_k min_threshold) = [].
Proof.
  split; [|reflexivity].
  unfold result_of. rewrite semantic_search_run by assumption. cbn [fst].
  rewrite thresholded_nil by assumption.
  pose proof (sort_desc_length snd (scored html_unescape self query emails)) as Hl.
  rewrite scored_length in Hl.
  destruct (sort_desc snd (scored html_unescape self query emails)) as [|x s] eqn:Es.
  - destruct emails; [congruence | discriminate].
  - assert (Hx : In x (scored html_unescape self query emails))
      by (apply (sort_desc_in snd); rewrite Es; now left).
    apply in_scored in Hx. destruct Hx as (e & He & ->).
    exists e. split; [assumption|]. split; [reflexivity|].
    intros Hnum e' He'.
    pose proof (sort_desc_sorted snd _ (scored_comparable emails Hnum)) as Hs.
    rewrite Es in Hs.
    apply (sorted_head_max snd (e, score html_unescape self query e) s)
      with (y := (e', score html_unescape self query e')).
    + now apply Hnum.
    + exact Hs.
    + rewrite <- Es. apply sort_desc_in. apply in_scored. eauto.
Qed.

(** C2, as the code has it. A request for zero results is honoured only
    on the thresholded path: with [top_k = 0] and a non-empty thresholded
    set the result is empty. When no score reaches the threshold the
    fallback answers with one entry for every [top_k], and a negative
    [top_k] is a slice bound that drops that many entries from the end of
    the sorted thresholded set. *)
Theorem top_k_zero_thresholded_only (emails : list Email) (min_threshold : option float) :
  let t := resolve self min_threshold in
  (thresholded html_unescape self query emails t <> [] ->
     result_of (semantic_search html_unescape self query emails 0 min_threshold) = []) /\
  (forall top_k, emails <> [] -> thresholded html_unescape self query emails t = [] ->
     length (result_of (semantic_search html_unescape self query emails top_k min_threshold)) = 1) /\
  (forall top_k, (top_k < 0)%Z -> thresholded html_unescape self query emails t <> [] ->
     result_of (semantic_search html_unescape self query emails top_k min_threshold) =
     firstn (length (thresholded html_unescape self query emails t) - Z.to_nat (- top_k))
       (sort_desc snd (thresholded html_unescape self query emails t))) /\
  (forall top_k, result_of (semantic_search html_unescape self query [] top_k min_threshold) = []).
Proof.
  intros t. repeat split.
  - intros Hne. destruct emails as [|e0 emails0]; [now elim Hne|].
    unfold result_of. rewrite semantic_search_run by discriminate. cbn [fst]. fold t.
 destruct (thresholded html_unescape self query (e0 :: emails0) t); [now elim Hne|reflexivity].
  - intros top_k Hcorpus Hnil.
    unfold result_of. rewrite semantic_search_run by assumption. cbn [fst]. fold t.
 rewrite Hnil.
    pose proof (sort_desc_length snd (scored html_unescape self query emails)) as Hl.
    rewrite scored_length in Hl.
    destruct (sort_desc snd (scored html_unescape self query emails)); [|reflexivity].
    destruct emails; [congruence | discriminate].
  - intros top_k Hneg Hne. destruct emails as [|e0 emails0]; [now elim Hne|].
    unfold result_of. rewrite semantic_search_run by discriminate. cbn [fst]. fold t.
 destruct (thresholded html_unescape self query (e0 :: emails0) t) eqn:Et; [now elim Hne|].
    rewrite <- Et. unfold slice_to. destruct (Z.ltb_spec top_k 0); [|lia].
    rewrite sort_desc_length. f_equal.
    assert (E : forall n : nat, Z.to_nat (Z.of_nat n + top_k) = n - Z.to_nat (- top_k))
      by (intros; lia).
    apply E.
Qed.

(** C3, as the code has it. Ordering: when some score reaches the
    threshold, the result is in descending order of score, and for every
    score value its entries are an initial segment of the corpus entries
    with that score, in corpus order. Of the [n] documents that reach the
    threshold it holds [min(top_k, n)] for a [top_k] that is not negative,
    so at most [top_k]; a negative [top_k] is a slice bound, and the
    result holds [max(0, n + top_k)] entries. *)
Theorem thresholded_result_sorted_stable (emails : list Email) (top_k : Z)
  (min_threshold : option float)
  (Hsome : thresholded html_unescape self query emails (resolve self min_threshold) <> []) :
  let result := result_of (semantic_search html_unescape self query emails top_k min_threshold) in
  let n := Z.of_nat
             (length (thresholded html_unescape self query emails (resolve self min_threshold))) in
  StronglySorted (desc snd) result /\
  (forall v, exists rest,
     with_key snd v (scored html_unescape self query emails) = with_key snd v result ++ rest) /\
  Z.of_nat (length result) =
    (if (top_k <? 0)%Z then Z.max 0 (n + top_k) else Z.min top_k n) /\
  ((0 <= top_k)%Z -> (Z.of_nat (length result) <= top_k)%Z).
Proof.
  intros result n. subst result n.
  destruct emails as [|e0 emails0]; [now elim Hsome|].
  unfold result_of. rewrite semantic_search_run by discriminate. cbn [fst].
  set (t := resolve self min_threshold) in *.
  destruct (thresholded html_unescape self query (e0 :: emails0) t) as [|y f] eqn:Et;
    [now elim Hsome|].
  rewrite <- Et. set (emails := e0 :: emails0) in *.
  assert (Hcmp : comparable snd (thresholded html_unescape self query emails t)).
  { apply Forall_forall. intros es Hes. apply thresholded_in in Hes.
    destruct Hes as [_ Hes]. unfold geb in Hes. now apply leb_not_nan in Hes. }
  destruct (slice_to_firstn top_k
              (sort_desc snd (thresholded html_unescape self query emails t))) as [k Hk].
  repeat split.
  - rewrite Hk. apply firstn_sorted, sort_desc_sorted, Hcmp.
  - intros v. rewrite Hk.
    destruct (with_key_firstn snd v k
                (sort_desc snd (thresholded html_unescape self query emails t)))
      as [rest Hr].
    rewrite with_key_sort in Hr by exact Hcmp.
    destruct (geb v t) eqn:Ev.
    + exists rest. rewrite <- Hr.
      unfold with_key, thresholded.
      induction (scored html_unescape self query emails) as [|x l IH]; simpl; [reflexivity|].
      destruct (snd x =? v)%float eqn:Ex.
      * rewrite (eqb_geb _ _ t Ex), Ev. simpl. rewrite Ex. now f_equal.
      * destruct (geb (snd x) t); simpl; [rewrite Ex|]; exact IH.
    + exists (with_key snd v (scored html_unescape self query emails)).
      assert (E : with_key snd v (thresholded html_unescape self query emails t) = []).
      { unfold with_key, thresholded.
        induction (scored html_unescape self query emails) as [|x l IH];
          simpl; [reflexivity|].
        destruct (geb (snd x) t) eqn:Ex; simpl; [|exact IH].
        destruct (snd x =? v)%float eqn:Exv; [|exact IH].
        rewrite (eqb_geb _ _ t Exv), Ev in Ex. discriminate. }
      rewrite E in Hr. symmetry in Hr. apply app_eq_nil in Hr. destruct Hr as [-> _].
      reflexivity.
  - unfold slice_to. destruct (Z.ltb_spec top_k 0).
    + rewrite length_firstn, sort_desc_length.
      assert (E : forall m : nat,
                Z.of_nat (Nat.min (Z.to_nat (Z.of_nat m + top_k)) m) =
                Z.max 0 (Z.of_nat m + top_k)) by (intros; lia).
      apply E.
    + rewrite length_firstn, sort_desc_length.
      assert (E : forall m : nat,
                Z.of_nat (Nat.min (Z.to_nat top_k) m) = Z.min top_k (Z.of_nat m))
        by (intros; lia).
      apply E.
  - apply slice_to_length.
Qed.

(** C9. Empty corpus: the search returns the empty list and leaves the
    call log as it was, so the model is not called, neither for the query
    nor for a document; on a corpus with documents the log grows by the
    query and by one text per document. *)
Theorem empty_corpus_calls_nothing (top_k : Z) (min_threshold : option float)
  (log : list str) :
  semantic_search html_unescape self query [] top_k min_threshold log = ([], log) /\
  calls_of (semantic_search html_unescape self query [] top_k min_threshold) = [] /\
  forall e emails,
    snd (semantic_search html_unescape self query (e :: emails) top_k min_threshold log) =
    log ++ query :: map (combined_text html_unescape) (e :: emails).
Proof.
  split; [reflexivity|]. split; [reflexivity|].
  intros e emails. now rewrite semantic_search_run.
Qed.

(** C10. [search_with_threshold] gives no guarantee of a result: when every
    score of a non-empty corpus is below the given threshold it returns the
    empty list, although the inner search (default threshold, fallback)
    returned entries. *)
Theorem search_with_threshold_can_be_empty (emails : list Email) (threshold : float)
  (top_k : Z)
  (Hcorpus : emails <> [])
  (Hbelow : forall e, In e emails -> geb (score html_unescape self query e) threshold = false) :
  result_of (search_with_threshold html_unescape self query emails threshold top_k) = [].
Proof.
  unfold result_of, search_with_threshold, bind, ret.
  destruct (semantic_search html_unescape self query emails
              (Z.of_nat (length emails)) None []) as [results log'] eqn:Er.
  cbn [fst].
  assert (Hin : forall es, In es results -> In es (scored html_unescape self query emails)).
  { intros es Hes. apply (result_in_scored emails (Z.of_nat (length emails)) None).
    unfold result_of. now rewrite Er. }
  assert (E : filter (fun es : Email * float => geb (snd es) threshold) results = []).
  { clear Er. induction results as [|x l IH]; simpl; [reflexivity|].
    destruct (proj1 (in_scored emails x) (Hin x (or_introl eq_refl))) as (e & He & ->).
    cbn [snd]. rewrite (Hbelow e He). apply IH. intros; apply Hin; now right. }
  rewrite E. unfold slice_to. destruct (top_k <? 0)%Z; apply firstn_nil.
Qed.

End Claims.

Import Sample.

(** The fallback on a corpus whose scores are numbers, all below 0.9. *)
Lemma fallback_rule_witness :
  (exists e, In e low_corpus /\
     result_of (semantic_search unescape engine (lit "a") low_corpus 5 (Some 0.9%float)) =
       [(e, score unescape engine (lit "a") e)] /\
     forall e', In e' low_corpus ->
       (score unescape engine (lit "a") e' <=? score unescape engine (lit "a") e)%float = true) /\
  result_of (semantic_search unescape engine (lit "a") [] 5 (Some 0.9%float)) = [].
Proof.
  destruct (fallback_rule unescape engine (lit "a") low_corpus 5 (Some 0.9%float))
    as [(e & He & Hresult & Hmax) Hempty].
  - discriminate.
  - intros e [<-|[<-|[<-|[]]]]; vm_compute; reflexivity.
  - split; [|exact Hempty]. exists e. repeat split; [exact He | exact Hresult |].
    apply Hmax. intros e' [<-|[<-|[<-|[]]]]; vm_compute; reflexivity.
Defined.

(** C1 fails on the code: the sort compares with [<] only, which is false
    whenever a score is NaN. The second of three documents has a zero
    vector and so the score NaN; no score reaches 0.9; the fallback returns
    the first document, of score 0, although the third has score 0.707. *)
Lemma fallback_entry_not_maximum :
  Forall (fun e => geb (score unescape engine (lit "a") e) 0.9%float = false) nan_corpus /\
  map fst (result_of (semantic_search unescape engine (lit "a") nan_corpus 5 (Some 0.9%float))) =
    [mail "c: minutes" "see attachment"] /\
  In (mail "b: budget" "numbers") nan_corpus /\
  (score unescape engine (lit "a") (mail "c: minutes" "see attachment") <?
   score unescape engine (lit "a") (mail "b: budget" "numbers"))%float = true.
Proof.
  split; [repeat constructor|].
  split; [vm_compute; reflexivity|].
  split; [right; right; now left | vm_compute; reflexivity].
Defined.

(** C2 fails on the code: with [top_k = 0] the fallback still returns one
    entry, and with [top_k = -1] the thresholded path returns all entries
    but the last. *)
Lemma top_k_nonpositive_counterexample :
  result_of (semantic_search unescape engine (lit "a") low_corpus 0 (Some 0.9%float)) <> [] /\
  result_of (semantic_search unescape engine (lit "a") mixed_corpus (-1) None) <> [].
Proof. split; vm_compute; discriminate. Defined.

(** The ranking of a corpus with two documents of equal score. *)
Lemma thresholded_result_sorted_stable_witness :
  let result := result_of (semantic_search unescape engine (lit "a") mixed_corpus 5 None) in
  map fst result = [mail "a" "y"; mail "b first" "x"; mail "b second" "z"] /\
  StronglySorted (desc snd) result /\
  (forall v, exists rest,
     with_key snd v (scored unescape engine (lit "a") mixed_corpus) =
     with_key snd v result ++ rest) /\
  length result = 3 /\
  (Z.of_nat (length result) <= 5)%Z.
Proof.
  split; [vm_compute; reflexivity|].
  destruct (thresholded_result_sorted_stable unescape engine (lit "a") mixed_corpus 5 None)
    as (Hsorted & Hstable & Hlen & Hbound).
  - vm_compute; discriminate.
  - split; [exact Hsorted|]. split; [exact Hstable|]. split; [|apply Hbound; lia].
    apply Nat2Z.inj. rewrite Hlen. vm_compute. reflexivity.
Defined.

(** C3 fails on the code for a negative [top_k]: of the three documents
    that reach the threshold the search with [top_k = -1] returns two,
    which is more than [top_k]. *)
Lemma negative_top_k_exceeds_bound :
  thresholded unescape engine (lit "a") mixed_corpus (resolve engine None) <> [] /\
  length (result_of (semantic_search unescape engine (lit "a") mixed_corpus (-1) None)) = 2 /\
  (Z.of_nat
     (length (result_of (semantic_search unescape engine (lit "a") mixed_corpus (-1) None)))
   <=? -1)%Z = false.
Proof. repeat split; vm_compute; try reflexivity; discriminate. Defined.

(** The three cases on concrete corpora. *)
Lemma top_k_zero_thresholded_only_witness :
  result_of (semantic_search unescape engine (lit "a") mixed_corpus 0 None) = [] /\
  length (result_of (semantic_search unescape engine (lit "a") low_corpus 0 (Some 0.9%float))) = 1 /\
  map fst (result_of (semantic_search unescape engine (lit "a") mixed_corpus (-1) None)) =
    [mail "a" "y"; mail "b first" "x"].
Proof.
  destruct (top_k_zero_thresholded_only unescape engine (lit "a") mixed_corpus None)
    as (Hzero & _ & Hneg & _).
  destruct (top_k_zero_thresholded_only unescape engine (lit "a") low_corpus (Some 0.9%float))
    as (_ & Hfallback & _).
  split; [apply Hzero; vm_compute; discriminate|].
  split; [apply Hfallback; [discriminate | vm_compute; reflexivity]|].
  rewrite (Hneg (-1)%Z); [vm_compute; reflexivity | lia | vm_compute; discriminate].
Defined.

(** The inner search returns the one document that reaches the default
    threshold (score 0.707), which the outer filter at 0.9 drops. *)
Lemma search_with_threshold_can_be_empty_witness :
  low_corpus <> [] /\
  result_of (semantic_search unescape engine (lit "a") low_corpus 3 None) <> [] /\
  result_of (search_with_threshold unescape engine (lit "a") low_corpus 0.9%float 10) = [].
Proof.
  split; [discriminate|]. split; [vm_compute; discriminate|].
  apply (search_with_threshold_can_be_empty unescape engine (lit "a") low_corpus 0.9%float 10).
  - discriminate.
  - intros e [<-|[<-|[<-|[]]]]; vm_compute; reflexivity.
Defined.

End Ranking.

(** * The text and the vector of a document *)

Module Embedding.
Import Py PyFacts Re Shape Log SemanticSearch.

Lemma lstrip_blank (s : str) : forallb is_space s = true -> lstrip s = [].
Proof.
  unfold lstrip. induction s as [|c s IH]; [reflexivity|]. cbn [forallb drop_while].
  rewrite andb_true_iff. intros [-> Hs]. auto.
Qed.

(** Empty or whitespace only is what [not s.strip()] tests. *)
Lemma strip_blank (s : str) : forallb is_space s = true -> strip s = [].
Proof. intros H. unfold strip. now rewrite lstrip_blank. Qed.

Section Document.
Variable html_unescape : str -> str.
Variable self : SemanticSearchEngine.

(** What [create_email_embedding] does with the model: one call, on the
    combined text, whose vector is divided by its norm. *)
Lemma create_email_embedding_run (email_data : Email) (log : list str) :
  create_email_embedding html_unescape self email_data log =
  (let v := model self (combined_text html_unescape email_data) in Np.div v (Np.norm v),
   log ++ [combined_text html_unescape email_data]).
Proof. reflexivity. Qed.

(** C6, as the code has it. Whenever the subject twice and the cleaned
    body, joined by spaces, are empty or whitespace only, the text handed to
    the model is the literal placeholder [empty email]. *)
Theorem blank_document_placeholder (email_data : Email)
  (Hblank : forallb is_space (weighted_text html_unescape email_data) = true) :
  combined_text html_unescape email_data = lit "empty email" /\
  calls_of (create_email_embedding html_unescape self email_data) = [lit "empty email"].
Proof.
  assert (E : combined_text html_unescape email_data = lit "empty email").
  { unfold combined_text. cbv zeta. now rewrite (strip_blank _ Hblank). }
  split; [exact E|].
  unfold calls_of. rewrite create_email_embedding_run. cbn [snd app]. now rewrite E.
Qed.

(** C7, as the code has it. When the document has content, the text handed
    to the model is the subject, stripped of surrounding whitespace and not
    cleaned otherwise, twice, then the cleaned body ([full_body] when the
    key is present, else [body]), joined by single spaces. *)
Theorem embedded_text_weights_stripped_subject (email_data : Email)
  (Hcontent : is_empty (strip (weighted_text html_unescape email_data)) = false) :
  let subject := strip (get (subject email_data) []) in
  let body :=
    match full_body email_data with
    | Some b => b
    | None => get (body email_data) []
    end in
  calls_of (create_email_embedding html_unescape self email_data) =
  [subject ++ lit " " ++ subject ++ lit " " ++ clean_email_body html_unescape body].
Proof.
  intros subject0 body0. unfold calls_of. rewrite create_email_embedding_run.
  cbn [snd app]. unfold combined_text. cbv zeta. rewrite Hcontent. reflexivity.
Qed.

End Document.

Import Sample.

(** A document with empty subject and empty body. *)
Lemma blank_document_placeholder_witness :
  forallb is_space (weighted_text unescape (mail "" "")) = true /\
  combined_text unescape (mail "" "") = lit "empty email" /\
  calls_of (create_email_embedding unescape engine (mail "" "")) = [lit "empty email"].
Proof.
  split; [reflexivity|].
  apply (blank_document_placeholder unescape engine (mail "" "")). reflexivity.
Defined.

(** C6 fails on the code: the placeholder is not [empty document]. *)
Lemma placeholder_is_not_empty_document :
  calls_of (create_email_embedding unescape engine (mail "" "")) <> [lit "empty document"].
Proof. vm_compute. discriminate. Defined.

(** A subject with a slash and a tag is embedded as it is. *)
Lemma embedded_text_weights_stripped_subject_witness :
  is_empty (strip (weighted_text unescape (mail " Q3/Q4 <draft> " "see <b>notes</b>"))) = false /\
  calls_of (create_email_embedding unescape engine (mail " Q3/Q4 <draft> " "see <b>notes</b>")) =
  [lit "Q3/Q4 <draft> Q3/Q4 <draft> see notes"].
Proof.
  split; [vm_compute; reflexivity|].
  apply (embedded_text_weights_stripped_subject unescape engine
           (mail " Q3/Q4 <draft> " "see <b>notes</b>")).
  vm_compute; reflexivity.
Defined.

(** C7 fails on the code: the subject does not pass through the cleaner. *)
Lemma subject_is_not_cleaned :
  clean_email_body unescape (lit " Q3/Q4 <draft> ") = lit "Q3 Q4" /\
  clean_email_body unescape (lit "see <b>notes</b>") = lit "see notes" /\
  calls_of (create_email_embedding unescape engine
              (mail " Q3/Q4 <draft> " "see <b>notes</b>")) <>
  [clean_email_body unescape (lit " Q3/Q4 <draft> ") ++ lit " " ++
   clean_email_body unescape (lit " Q3/Q4 <draft> ") ++ lit " " ++
   clean_email_body unescape (lit "see <b>notes</b>")].
Proof. repeat split; vm_compute; (reflexivity || discriminate). Defined.

End Embedding.

(** * Vectors of norm zero *)

Module Degenerate.
Import Py PyFacts Log SemanticSearch.

Lemma SFdiv_by_zero (x : spec_float) (s : bool) :
  Np.sf_non_finite (SF64div x (S754_zero s)).
Proof. destruct x; cbn; unfold Np.sf_non_finite; eauto. Qed.

Lemma SFmul_non_finite_l (x y : spec_float) :
  Np.sf_non_finite x -> Np.sf_non_finite (SF64mul x y).
Proof.
  intros [->|[s ->]]; [now left|]. destruct y; cbn; unfold Np.sf_non_finite; eauto.
Qed.

Lemma SFmul_non_finite_r (x y : spec_float) :
  Np.sf_non_finite y -> Np.sf_non_finite (SF64mul x y).
Proof.
  intros [->|[s ->]]; destruct x; cbn; unfold Np.sf_non_finite; eauto.
Qed.

Lemma SFadd_non_finite_l (x y : spec_float) :
  Np.sf_non_finite x -> Np.sf_non_finite (SF64add x y).
Proof.
  intros [->|[s ->]]; [now left|].
  destruct y as [| [] | |]; destruct s; cbn; unfold Np.sf_non_finite; eauto.
Qed.

Lemma SFadd_non_finite_r (x y : spec_float) :
  Np.sf_non_finite y -> Np.sf_non_finite (SF64add x y).
Proof.
  intros [->|[s ->]]; [destruct x; now left|].
  destruct x as [| [] | |]; destruct s; cbn; unfold Np.sf_non_finite; eauto.
Qed.

(** [n == 0.0] holds of the two zeros only. *)
Lemma eqb_zero (n : float) : (n =? 0)%float = true -> exists s, Prim2SF n = S754_zero s.
Proof.
  rewrite eqb_spec. change (Prim2SF 0) with (S754_zero false). unfold SFeqb.
  destruct (Prim2SF n) as [s|s| |s m e]; try (now eauto); destruct s; discriminate.
Qed.

Lemma div_by_zero (x n : float) : (n =? 0)%float = true -> Np.non_finite (x / n).
Proof.
  intros H. destruct (eqb_zero n H) as [s E]. unfold Np.non_finite.
  rewrite div_spec, E. apply SFdiv_by_zero.
Qed.

Lemma mul_non_finite_l (x y : float) : Np.non_finite x -> Np.non_finite (x * y).
Proof. unfold Np.non_finite. rewrite mul_spec. apply SFmul_non_finite_l. Qed.

Lemma mul_non_finite_r (x y : float) : Np.non_finite y -> Np.non_finite (x * y).
Proof. unfold Np.non_finite. rewrite mul_spec. apply SFmul_non_finite_r. Qed.

Lemma add_non_finite_l (x y : float) : Np.non_finite x -> Np.non_finite (x + y).
Proof. unfold Np.non_finite. rewrite add_spec. apply SFadd_non_finite_l. Qed.

Lemma add_non_finite_r (x y : float) : Np.non_finite y -> Np.non_finite (x + y).
Proof. unfold Np.non_finite. rewrite add_spec. apply SFadd_non_finite_r. Qed.

(** An infinity or NaN is not a finite number, and is not equal to zero. *)
Lemma non_finite_is_finite (x : float) : Np.non_finite x -> is_finite x = false.
Proof.
  unfold is_finite, is_nan, is_infinity. rewrite !eqb_spec, abs_spec.
  change (Prim2SF infinity) with (S754_infinity false).
  intros [->|[s ->]]; [reflexivity|]. now destruct s.
Qed.

Lemma non_finite_not_zero (x : float) : Np.non_finite x -> (x =? 0)%float = false.
Proof.
  rewrite eqb_spec. change (Prim2SF 0) with (S754_zero false).
  intros [->|[s ->]]; [reflexivity|]. now destruct s.
Qed.

Lemma div_by_zero_all (v : Np.ndarray) (n : float) :
  (n =? 0)%float = true -> Forall Np.non_finite (Np.div v n).
Proof.
  intros H. unfold Np.div. apply Forall_forall. intros y Hy.
  apply in_map_iff in Hy. destruct Hy as (x & <- & _). now apply div_by_zero.
Qed.

Lemma dot_tail_non_finite (pairs : list (float * float)) (acc : float) :
  Np.non_finite acc ->
  Np.non_finite (fold_left (fun a xy => a + fst xy * snd xy)%float pairs acc).
Proof.
  revert acc. induction pairs as [|xy pairs IH]; intros acc H; [exact H|].
  cbn [fold_left]. apply IH. now apply add_non_finite_l.
Qed.

(** The dot product of non-empty vectors, one of which has only infinities
    and NaN, is an infinity or NaN. *)
Lemma dot_non_finite (u v : Np.ndarray) :
  u <> [] -> v <> [] -> Forall Np.non_finite u \/ Forall Np.non_finite v ->
  Np.non_finite (Np.dot u v).
Proof.
  intros Hu Hv H. destruct u as [|x u]; [congruence|]. destruct v as [|y v]; [congruence|].
  unfold Np.dot. cbn [combine fold_left fst snd]. apply dot_tail_non_finite.
  apply add_non_finite_r. destruct H as [H|H]; inversion_clear H.
  - now apply mul_non_finite_l.
  - now apply mul_non_finite_r.
Qed.

Lemma div_not_nil (v : Np.ndarray) (n : float) : v <> [] -> Np.div v n <> [].
Proof. destruct v; [congruence | discriminate]. Qed.

(** C5, as the code has it. No guard protects the division by the norm:
    when the model returns, for the document or for the query, a vector
    whose norm is exactly zero, the score of the document is an infinity or
    NaN; it is not a finite number and it is not 0. The vectors have at
    least one component. *)
Theorem zero_norm_score_not_finite (html_unescape : str -> str)
  (self : SemanticSearchEngine) (query : str) (e : Email)
  (Hdoc : model self (combined_text html_unescape e) <> [])
  (Hquery : model self query <> [])
  (Hzero : (Np.norm (model self (combined_text html_unescape e)) =? 0)%float = true \/
           (Np.norm (model self query) =? 0)%float = true) :
  Np.non_finite (score html_unescape self query e) /\
  is_finite (score html_unescape self query e) = false /\
  (score html_unescape self query e =? 0)%float = false.
Proof.
  assert (H : Np.non_finite (score html_unescape self query e)).
  { unfold score. cbv zeta. apply dot_non_finite.
    - now apply div_not_nil.
    - now apply div_not_nil.
    - destruct Hzero as [Hz|Hz]; [left | right]; now apply div_by_zero_all. }
  split; [exact H|]. split; [now apply non_finite_is_finite | now apply non_finite_not_zero].
Qed.

Import Sample.

(** A document whose vector is zero. *)
Lemma zero_norm_score_not_finite_witness :
  Np.non_finite (score unescape engine (lit "a") (mail "zero vector" "")) /\
  is_finite (score unescape engine (lit "a") (mail "zero vector" "")) = false /\
  (score unescape engine (lit "a") (mail "zero vector" "") =? 0)%float = false.
Proof.
  apply (zero_norm_score_not_finite unescape engine (lit "a") (mail "zero vector" "")).
  - vm_compute; discriminate.
  - vm_compute; discriminate.
  - left. vm_compute; reflexivity.
Defined.

(** C5 fails on the code: a search returns the NaN score of a document
    whose vector is zero. *)
Lemma search_returns_nan_score :
  map (fun es => (is_finite (snd es), is_nan (snd es), (snd es =? 0)%float))
    (result_of (semantic_search unescape engine (lit "a") [mail "zero vector" ""] 5 None)) =
  [(false, true, false)].
Proof. vm_compute. reflexivity. Defined.

End Degenerate.

(** * More about the ranking *)

Module SearchMore.
Import Py PyFacts SortFacts Log SemanticSearch SearchFacts.

Lemma filter_split {A : Type} (f : A -> bool) (l : list A) :
  Permutation (filter f l ++ filter (fun x => negb (f x)) l) l.
Proof.
  induction l as [|x l IH]; [reflexivity|]. cbn [filter].
  destruct (f x); cbn [negb app].
  - now constructor.
  - rewrite <- Permutation_middle. now constructor.
Qed.

Lemma is_nan_true (x : float) : is_nan x = true -> Prim2SF x = S754_nan.
Proof.
  intros H. destruct (Prim2SF x) eqn:E; try reflexivity;
    assert (N : not_nan x) by (apply not_nan_spec; congruence);
    unfold not_nan in N; congruence.
Qed.

(** No number reaches a threshold that is NaN. *)
Lemma geb_nan (s t : float) : is_nan t = true -> geb s t = false.
Proof.
  intros H. unfold geb. rewrite leb_spec, (is_nan_true t H). reflexivity.
Qed.

Section Result.
Variable html_unescape : str -> str.
Variable self : SemanticSearchEngine.
Variable query : str.

(** The result is a prefix of the sorted scored corpus or of the sorted
    thresholded set. *)
Lemma result_shape (emails : list Email) (top_k : Z) (min_threshold : option float) :
  let t := resolve self min_threshold in
  let result := result_of (semantic_search html_unescape self query emails top_k min_threshold) in
  (thresholded html_unescape self query emails t = [] /\
   result = firstn 1 (sort_desc snd (scored html_unescape self query emails))) \/
  (thresholded html_unescape self query emails t <> [] /\
   result = slice_to top_k (sort_desc snd (thresholded html_unescape self query emails t))).
Proof.
  intros t result. subst result. destruct emails as [|e0 emails0]; [left; now split|].
  unfold result_of. rewrite semantic_search_run by discriminate. cbn [fst]. fold t.
  destruct (thresholded html_unescape self query (e0 :: emails0) t) as [|y f] eqn:Et.
  - left. split; [reflexivity|].
    destruct (sort_desc snd (scored html_unescape self query (e0 :: emails0))); reflexivity.
  - right. split; [discriminate | reflexivity].
Qed.

Lemma prefix_part {A : Type} (n : nat) (l l' : list A) :
  Permutation l l' -> exists rest, Permutation (firstn n l ++ rest) l'.
Proof. intros P. exists (skipn n l). now rewrite firstn_skipn. Qed.

Lemma result_part (emails : list Email) (top_k : Z) (min_threshold : option float) :
  exists rest,
    Permutation
      (result_of (semantic_search html_unescape self query emails top_k min_threshold)
       ++ rest)
      (scored html_unescape self query emails).
Proof.
  destruct (result_shape emails top_k min_threshold) as [[_ ->]|[_ ->]].
  - apply prefix_part, sort_desc_perm.
  - destruct (slice_to_firstn top_k
                (sort_desc snd (thresholded html_unescape self query emails
                                  (resolve self min_threshold)))) as [n ->].
    destruct (prefix_part n _ _
                (sort_desc_perm snd (thresholded html_unescape self query emails
                                       (resolve self min_threshold)))) as [rest P].
    exists (rest ++ filter (fun es => negb (geb (snd es) (resolve self min_threshold)))
                      (scored html_unescape self query emails)).
    rewrite app_assoc, P. apply filter_split.
Qed.

(** a search neither invents nor repeats documents: its result, with
    some remainder, is a rearrangement of the scored corpus. *)
Theorem result_is_part_of_corpus (emails : list Email) (top_k : Z)
  (min_threshold : option float) :
  let result := result_of (semantic_search html_unescape self query emails top_k min_threshold) in
  (exists rest, Permutation (result ++ rest) (scored html_unescape self query emails)) /\
  length result <= length emails.
Proof.
  intros result. pose proof (result_part emails top_k min_threshold) as H.
  split; [exact H|]. destruct H as [rest P].
  apply Permutation_length in P. rewrite length_app in P.
  unfold scored in P. rewrite length_map in P. subst result. lia.
Qed.

(** the guarantee of a result: on a corpus with documents a search for
    at least one result returns at least one. *)
Theorem at_least_one_result (emails : list Email) (top_k : Z) (min_threshold : option float)
  (Hcorpus : emails <> []) (Hk : (1 <= top_k)%Z) :
  result_of (semantic_search html_unescape self query emails top_k min_threshold) <> [].
Proof.
  destruct (result_shape emails top_k min_threshold) as [[_ ->]|[Hne ->]].
  - pose proof (sort_desc_length snd (scored html_unescape self query emails)) as L.
    unfold scored in L at 2. rewrite length_map in L.
    destruct (sort_desc snd (scored html_unescape self query emails)); [|discriminate].
    destruct emails; [congruence | discriminate].
  - pose proof (sort_desc_length snd (thresholded html_unescape self query emails
                                        (resolve self min_threshold))) as L.
    unfold slice_to. destruct (Z.ltb_spec top_k 0); [lia|].
    destruct (sort_desc snd _) as [|x l].
    + destruct (thresholded html_unescape self query emails (resolve self min_threshold));
        [congruence | discriminate].
    + destruct (Z.to_nat top_k) eqn:E; [lia | discriminate].
Qed.

(** the number of results on the thresholded path is the smaller of
    [top_k] and the number of documents that reach the threshold. *)
Theorem thresholded_result_length (emails : list Email) (top_k : Z)
  (min_threshold : option float)
  (Hsome : thresholded html_unescape self query emails (resolve self min_threshold) <> [])
  (Hk : (0 <= top_k)%Z) :
  Z.of_nat (length (result_of
     (semantic_search html_unescape self query emails top_k min_threshold))) =
  Z.min top_k
    (Z.of_nat (length (thresholded html_unescape self query emails
                         (resolve self min_threshold)))).
Proof.
  destruct (result_shape emails top_k min_threshold) as [[Hnil _]|[_ ->]]; [congruence|].
  unfold slice_to. destruct (Z.ltb_spec top_k 0); [lia|].
  rewrite length_firstn, sort_desc_length.
  assert (E : forall n : nat,
             Z.of_nat (Nat.min (Z.to_nat top_k) n) = Z.min top_k (Z.of_nat n))
    by (intros; lia).
  apply E.
Qed.

Lemma thresholded_reach (emails : list Email) (t : float) (es : Scored) :
  In es (thresholded html_unescape self query emails t) -> geb (snd es) t = true.
Proof. unfold thresholded. rewrite filter_In. tauto. Qed.

(** An entry below the threshold can only be the fallback. *)
Lemma below_threshold_fallback (emails : list Email) (top_k : Z)
  (min_threshold : option float) (es : Scored) :
  In es (result_of (semantic_search html_unescape self query emails top_k min_threshold)) ->
  geb (snd es) (resolve self min_threshold) = false ->
  result_of (semantic_search html_unescape self query emails top_k min_threshold) = [es] /\
  thresholded html_unescape self query emails (resolve self min_threshold) = [].
Proof.
  destruct (result_shape emails top_k min_threshold) as [[Hnil ->]|[_ ->]].
  - intros Hin _. split; [|exact Hnil].
    destruct (sort_desc snd (scored html_unescape self query emails)) as [|x l];
      [destruct Hin|].
    cbn [firstn] in *. destruct Hin as [->|[]]. reflexivity.
  - intros Hin Hlow. apply slice_to_incl, sort_desc_in, thresholded_reach in Hin. congruence.
Qed.

(** a returned entry whose score is below the threshold in force is the
    whole result: it is the fallback, and no document reached the
    threshold. *)
Theorem entry_below_threshold_is_fallback (emails : list Email) (top_k : Z)
  (min_threshold : option float) (es : Scored)
  (Hin : In es (result_of
           (semantic_search html_unescape self query emails top_k min_threshold)))
  (Hlow : geb (snd es) (resolve self min_threshold) = false) :
  result_of (semantic_search html_unescape self query emails top_k min_threshold) = [es] /\
  thresholded html_unescape self query emails (resolve self min_threshold) = [].
Proof. now apply below_threshold_fallback. Qed.

(** a threshold that is NaN is reached by no score, so on a corpus with
    documents every search answers with exactly one entry. *)
Theorem nan_threshold_always_falls_back (emails : list Email) (top_k : Z) (t : float)
  (Hcorpus : emails <> []) (Hnan : is_nan t = true) :
  thresholded html_unescape self query emails t = [] /\
  length (result_of (semantic_search html_unescape self query emails top_k (Some t))) = 1.
Proof.
  assert (Hnil : thresholded html_unescape self query emails t = []).
  { unfold thresholded. induction (scored html_unescape self query emails) as [|x l IH];
      [reflexivity|]. cbn [filter]. now rewrite (geb_nan _ _ Hnan). }
  split; [exact Hnil|].
  destruct (result_shape emails top_k (Some t)) as [[_ ->]|[Hne _]];
    [|cbn [resolve] in Hne; congruence].
  pose proof (sort_desc_length snd (scored html_unescape self query emails)) as L.
  unfold scored in L at 2. rewrite length_map in L.
  destruct (sort_desc snd (scored html_unescape self query emails)); [|reflexivity].
  destruct emails; [congruence | discriminate].
Qed.

(** ** [search_with_threshold] *)

Lemma search_with_threshold_result (emails : list Email) (threshold : float) (top_k : Z) :
  result_of (search_with_threshold html_unescape self query emails threshold top_k) =
  slice_to top_k
    (filter (fun es : Email * float => geb (snd es) threshold)
       (result_of (semantic_search html_unescape self query emails
                     (Z.of_nat (length emails)) None))).
Proof.
  unfold result_of, search_with_threshold, bind, ret.
  destruct (semantic_search html_unescape self query emails
              (Z.of_nat (length emails)) None []). reflexivity.
Qed.

(** every entry that [search_with_threshold] returns is a document of
    the corpus whose score reaches the threshold, and there are at most
    [top_k] of them for a non-negative [top_k]. *)
Theorem search_with_threshold_entries (emails : list Email) (threshold : float)
  (top_k : Z) :
  let result :=
    result_of (search_with_threshold html_unescape self query emails threshold top_k) in
  (forall es, In es result ->
     geb (snd es) threshold = true /\ In es (scored html_unescape self query emails)) /\
  ((0 <= top_k)%Z -> (Z.of_nat (length result) <= top_k)%Z).
Proof.
  intros result. subst result. rewrite search_with_threshold_result. split.
  - intros es Hin. apply slice_to_incl, filter_In in Hin. destruct Hin as [Hin Hge].
    split; [exact Hge|].
    destruct (result_part emails (Z.of_nat (length emails)) None) as [rest P].
    eapply Permutation_in; [exact P|]. apply in_or_app. now left.
  - apply slice_to_length.
Qed.

(** when some document reaches the default threshold of the engine,
    [search_with_threshold] returns only entries that reach the default
    threshold as well: a document between a lower given threshold and the
    default is left out. *)
Theorem search_with_threshold_keeps_default (emails : list Email) (threshold : float)
  (top_k : Z) (es : Scored)
  (Hsome : thresholded html_unescape self query emails (similarity_threshold self) <> [])
  (Hin : In es (result_of
           (search_with_threshold html_unescape self query emails threshold top_k))) :
  geb (snd es) (similarity_threshold self) = true /\ geb (snd es) threshold = true.
Proof.
  rewrite search_with_threshold_result in Hin.
  apply slice_to_incl, filter_In in Hin. destruct Hin as [Hin Hge]. split; [|exact Hge].
  destruct (geb (snd es) (similarity_threshold self)) eqn:E; [reflexivity|].
  destruct (below_threshold_fallback emails (Z.of_nat (length emails)) None es Hin E)
    as [_ Hnil]. cbn [resolve] in Hnil. congruence.
Qed.

(** [search_with_threshold] calls the model as the search does: not at
    all on the empty corpus, otherwise once for the query and once for
    every document, whatever the threshold and [top_k]. *)
Theorem search_with_threshold_calls (threshold : float) (top_k : Z) :
  calls_of (search_with_threshold html_unescape self query [] threshold top_k) = [] /\
  forall e emails,
    calls_of (search_with_threshold html_unescape self query (e :: emails) threshold top_k) =
    query :: map (combined_text html_unescape) (e :: emails).
Proof.
  split; [reflexivity|]. intros e emails.
  unfold calls_of, search_with_threshold, bind, ret.
  rewrite semantic_search_run by discriminate. reflexivity.
Qed.

End Result.
End SearchMore.

(** * More about the cleaner *)

Module CleanMore.
Import Py Re Shape ReFacts CleanFacts Cleaning SemanticSearch.

Lemma strip_fixed (s : str) : strip (strip s) = strip s.
Proof.
  unfold strip. rewrite (lstrip_fixed (rstrip (lstrip s))).
  - apply rstrip_idem.
  - apply rstrip_head, lstrip_head.
Qed.

Lemma squeeze_blank (s : str) :
  forallb is_space s = true -> squeeze true s = [].
Proof.
  induction s as [|c s IH]; [reflexivity|]. cbn [forallb squeeze].
  rewrite andb_true_iff. intros [-> Hs]. auto.
Qed.

Lemma blank_absent (c : ascii) (s : str) :
  is_space c = false -> forallb is_space s = true -> ~ In c s.
Proof.
  intros Hc Hs Hin. rewrite forallb_forall in Hs. apply Hs in Hin. congruence.
Qed.

Section Cleaner.
Variable html_unescape : str -> str.

(** the cleaned text has at most 503 characters: 500, and the three of
    the ellipsis when it was cut. *)
Theorem clean_email_body_length (body : str) :
  length (clean_email_body html_unescape body) <= 503.
Proof.
  unfold clean_email_body. destruct (is_empty body); [cbn; lia|]. cbv zeta.
  match goal with |- context [strip ?x] => generalize (strip x) end. intros w.
  destruct (Nat.ltb_spec 500 (length w)); [|lia].
  rewrite length_app, length_firstn. cbn [length lit list_ascii_of_string]. lia.
Qed.

(** the cleaned text is made of word characters, single spaces and the
    kept punctuation only, with no whitespace at either end; so it has no
    angle bracket, slash, at sign, ampersand or line break. *)
Theorem clean_email_body_alphabet (body : str) :
  let t := clean_email_body html_unescape body in
  Forall (fun c => kept c = true) t /\
  spaced t = true /\
  strip t = t /\
  Forall (fun c => ~ In c t) (lit "<>/@&#" ++ ["010"%char]).
Proof.
  intros t. destruct (clean_email_body_cleaned html_unescape body) as [Hk Hs Hl Hr _].
  fold t in Hk, Hs, Hl, Hr. repeat split; try assumption.
  - unfold strip. now rewrite Hl, Hr.
  - repeat (constructor; [now apply kept_absent|]).
    constructor; [|constructor].
    intros Hin. apply (spaced_only_spaces t _ Hs) in Hin; [discriminate | reflexivity].
Qed.

(** The library function returns a text without an ampersand unchanged. *)
Hypothesis unescape_without_amp : forall s, ~ In "&"%char s -> html_unescape s = s.

(** a body of whitespace only is cleaned to the empty text. *)
Theorem clean_email_body_blank (body : str)
  (Hblank : forallb is_space body = true) :
  clean_email_body html_unescape body = [].
Proof.
  unfold clean_email_body. destruct body as [|c0 b0] eqn:Eb; [reflexivity|].
  rewrite <- Eb in *. assert (Hne : is_empty body = false) by now rewrite Eb.
  rewrite Hne. cbv zeta.
  rewrite unescape_without_amp by (now apply blank_absent).
  rewrite (sub_must "<" tag_re) by (reflexivity || now apply blank_absent).
  rewrite (sub_must "/" url_re) by (reflexivity || now apply blank_absent).
  rewrite (sub_must "@" email_re) by (reflexivity || now apply blank_absent).
  rewrite (sub_ws body).
  assert (E : squeeze false body = lit " ").
  { rewrite Eb in *. cbn [forallb] in Hblank. apply andb_true_iff in Hblank.
    destruct Hblank as [Hc Hb]. cbn [squeeze]. rewrite Hc, (squeeze_blank _ Hb).
    reflexivity. }
  rewrite E. reflexivity.
Qed.

End Cleaner.
End CleanMore.

(** * The mail store *)

Module ImapFacts.
Import Py PyStr Re Shape CleanFacts CleanMore Log SemanticSearch Imap.

Lemma rstrip_not_nil (c : ascii) (s : str) : is_space c = false -> rstrip (c :: s) <> [].
Proof. intros Hc. cbn [rstrip]. destruct (rstrip s); [rewrite Hc|]; discriminate. Qed.

(** A text that starts with a character other than whitespace is not blank. *)
Lemma strip_not_nil (c : ascii) (s : str) : is_space c = false -> strip (c :: s) <> [].
Proof.
  intros Hc. unfold strip, lstrip. cbn [drop_while]. rewrite Hc. now apply rstrip_not_nil.
Qed.

Lemma strip_head (s : str) : head_space (strip s) = false.
Proof. unfold strip. apply rstrip_head, lstrip_head. Qed.

(** What a message becomes when its subject can be read. *)
Lemma parse_email_some (msg : Message) (full : bool) (parsed : Email) :
  parse_email msg full = Some parsed ->
  exists s, header_subject msg = Some s /\
    parsed = mk_email (Some (if is_empty s then lit "(No Subject)" else s))
               (header_from msg) (header_date msg)
               (Some (if negb full then firstn 200 (strip (body_text msg))
                      else strip (body_text msg)))
               (Some (strip (body_text msg))).
Proof.
  unfold parse_email. destruct (header_subject msg) as [s|]; [|discriminate].
  intros [= <-]. now exists s.
Qed.

(** the parsed email holds the stripped body twice: in full under
    [full_body], and under [body] its first 200 characters, or all of it
    when the full body was asked for. *)
Theorem parse_email_bodies (msg : Message) (full : bool) (parsed : Email)
  (Hparsed : parse_email msg full = Some parsed) :
  exists preview whole,
    body parsed = Some preview /\ full_body parsed = Some whole /\
    whole = strip (body_text msg) /\ strip whole = whole /\
    preview = (if full then whole else firstn 200 whole) /\
    length preview <= (if full then length whole else 200).
Proof.
  destruct (parse_email_some msg full parsed Hparsed) as (s & _ & ->).
  exists (if negb full then firstn 200 (strip (body_text msg))
          else strip (body_text msg)), (strip (body_text msg)).
  repeat split.
  - apply strip_fixed.
  - now destruct full.
  - destruct full; cbn [negb]; [lia | rewrite length_firstn; lia].
Qed.

Lemma fetch_loop_parsed (msgs : list Message) (emails : list Email) :
  fetch_loop msgs = Some emails ->
  Forall2 (fun msg e => parse_email msg false = Some e) msgs emails.
Proof.
  revert emails. induction msgs as [|msg msgs IH]; intros emails; cbn [fetch_loop].
  - intros [= <-]. constructor.
  - destruct (parse_email msg false) as [parsed|] eqn:E; [|discriminate].
    destruct (fetch_loop msgs) as [r|]; [|discriminate].
    intros [= <-]. constructor; [exact E | now apply IH].
Qed.

Section Embedding.
Variable html_unescape : str -> str.

(** the search reads the full bodies although [fetch_all_emails] keeps
    previews under [body]: for every fetched email the embedded text, and
    so the score, is that of the same message parsed with
    [full_body=True]. *)
Theorem fetched_emails_embed_full_body (self : SemanticSearchEngine) (query : str)
  (mailbox : list Message) (emails : list Email)
  (Hfetched : fetch_all_emails mailbox = Some emails) :
  Forall2 (fun msg e =>
             exists whole, parse_email msg true = Some whole /\
               combined_text html_unescape e = combined_text html_unescape whole /\
               score html_unescape self query e = score html_unescape self query whole)
          (rev mailbox) emails.
Proof.
  apply fetch_loop_parsed in Hfetched.
  induction Hfetched as [|msg e msgs emails' He _ IH]; constructor; [|exact IH].
  destruct (parse_email_some msg false e He) as (s & Hs & ->).
  unfold parse_email. rewrite Hs. eexists. split; [reflexivity|]. split; reflexivity.
Qed.

(** a message whose subject is empty, or has a character other than
    whitespace, is parsed and never gets the placeholder: the stored
    subject (the literal [(No Subject)] for the empty one) is embedded
    twice before the cleaned body. *)
Theorem parsed_email_never_placeholder (msg : Message) (full : bool) (s : str)
  (Hheader : header_subject msg = Some s)
  (Hsubject : s = [] \/ forallb is_space s = false) :
  let stored := if is_empty s then lit "(No Subject)" else s in
  exists parsed, parse_email msg full = Some parsed /\
    subject parsed = Some stored /\
    strip stored <> [] /\
    combined_text html_unescape parsed =
    strip stored ++ lit " " ++ strip stored ++ lit " " ++
    clean_email_body html_unescape (strip (body_text msg)).
Proof.
  intros stored.
  assert (Hs : strip stored <> []).
  { subst stored. clear Hheader. destruct Hsubject as [->|Hnb]; [discriminate|].
    destruct s as [|c s]; [discriminate|]. cbn [is_empty].
    unfold strip, lstrip. induction (c :: s) as [|x l IH]; [discriminate|].
    cbn [forallb] in Hnb. cbn [drop_while]. destruct (is_space x) eqn:Ex.
    - apply IH. exact Hnb.
    - now apply rstrip_not_nil. }
  unfold parse_email. rewrite Hheader. cbv zeta. eexists. split; [reflexivity|].
  split; [reflexivity|]. split; [exact Hs|].
  unfold combined_text. cbv zeta.
  match goal with |- context [weighted_text html_unescape ?e] =>
    assert (E : weighted_text html_unescape e =
                strip stored ++ lit " " ++ strip stored ++ lit " " ++
                clean_email_body html_unescape (strip (body_text msg))) by reflexivity
  end.
  rewrite E. destruct (strip stored) as [|c r] eqn:Es; [congruence|].
  assert (Hc : is_space c = false).
  { pose proof (strip_head stored) as H. now rewrite Es in H. }
  cbn [app]. pose proof (strip_not_nil c
    (r ++ lit " " ++ (c :: r) ++ lit " " ++
     clean_email_body html_unescape (strip (body_text msg))) Hc) as Hn.
  match goal with |- context [is_empty ?x] => destruct x eqn:E2 end;
    [exfalso; apply Hn; exact E2 | reflexivity].
Qed.

End Embedding.

(** ** [search_emails] *)

Lemma search_loop_filter (keyword : str) (msgs : list Message) (result : list Email) :
  search_loop keyword msgs = Some result ->
  exists emails, fetch_loop msgs = Some emails /\
    result = filter (fun e => match keyword_matches keyword e with
                              | Some true => true
                              | _ => false
                              end) emails.
Proof.
  revert result. induction msgs as [|msg msgs IH]; intros result;
    cbn [search_loop fetch_loop].
  - intros [= <-]. now exists [].
  - destruct (parse_email msg false) as [parsed|]; [|discriminate].
    destruct (keyword_matches keyword parsed) as [hit|] eqn:Ek; [|discriminate].
    destruct (search_loop keyword msgs) as [r|]; [|discriminate].
    intros [= <-]. destruct (IH r eq_refl) as (emails & -> & ->).
    exists (parsed :: emails). split; [reflexivity|]. cbn [filter]. rewrite Ek.
    now destruct hit.
Qed.

(** The search raises when a message cannot be parsed or a field that it
    reads is [None]. *)
Lemma search_loop_error (keyword : str) (msgs : list Message) (msg : Message) :
  In msg msgs ->
  match parse_email msg false with
  | None => True
  | Some parsed => keyword_matches keyword parsed = None
  end ->
  search_loop keyword msgs = None.
Proof.
  induction msgs as [|m msgs IH]; intros Hin Hbad; [destruct Hin|].
  cbn [search_loop]. destruct Hin as [->|Hin].
  - destruct (parse_email msg false) as [parsed|]; [|reflexivity]. now rewrite Hbad.
  - rewrite (IH Hin Hbad). destruct (parse_email m false) as [parsed|]; [|reflexivity].
    now destruct (keyword_matches keyword parsed).
Qed.

(** when the keyword search returns, [fetch_all_emails] returns too, and
    the search returns those of its emails that match, in the same
    order. *)
Theorem search_emails_is_filtered_fetch (mailbox : list Message) (keyword : str)
  (result : list Email)
  (Hok : search_emails mailbox keyword = Some result) :
  exists emails, fetch_all_emails mailbox = Some emails /\
    result = filter (fun e => match keyword_matches keyword e with
                              | Some true => true
                              | _ => false
                              end) emails.
Proof. now apply search_loop_filter. Qed.

Lemma contains_nil (hay : str) : contains [] hay = true.
Proof. destruct hay; reflexivity. Qed.

Lemma search_loop_empty_keyword (msgs : list Message) :
  search_loop [] msgs = fetch_loop msgs.
Proof.
  induction msgs as [|msg msgs IH]; [reflexivity|]. cbn [search_loop fetch_loop].
  destruct (parse_email msg false) as [parsed|] eqn:E; [|reflexivity].
  destruct (parse_email_some msg false parsed E) as (s & _ & ->).
  unfold keyword_matches, lower_in. cbn [subject str_lower map].
  rewrite contains_nil, IH. reflexivity.
Qed.

(** with the empty keyword the search does what [fetch_all_emails] does:
    every email matches, also one without sender or date, and the search
    raises only where the listing raises. *)
Theorem search_emails_empty_keyword (mailbox : list Message) :
  search_emails mailbox [] = fetch_all_emails mailbox /\
  (forall emails, fetch_all_emails mailbox = Some emails ->
     length emails = length mailbox) /\
  (fetch_all_emails mailbox = None <->
   exists msg, In msg mailbox /\ header_subject msg = None).
Proof.
  split; [apply search_loop_empty_keyword|]. unfold fetch_all_emails. split.
  - intros emails H. apply fetch_loop_parsed, Forall2_length in H.
    now rewrite length_rev in H.
  - assert (E : forall msgs, fetch_loop msgs = None <->
                  exists msg, In msg msgs /\ header_subject msg = None).
    { induction msgs as [|m msgs IH]; cbn [fetch_loop].
      - split; [discriminate | intros (msg & [] & _)].
      - unfold parse_email at 1. destruct (header_subject m) as [s|] eqn:Em.
        + cbv zeta. destruct (fetch_loop msgs) as [r|].
          * split; [discriminate|]. intros (msg & [<-|Hin] & Hn); [congruence|].
            destruct IH as [_ IH]. discriminate IH. eauto.
          * split; [|reflexivity]. intros _. destruct IH as [IH _].
            destruct (IH eq_refl) as (msg & Hin & Hn). exists msg. split; [now right | exact Hn].
        + split; [|reflexivity]. intros _. exists m. split; [now left | exact Em]. }
    rewrite E. split; intros (msg & Hin & Hn); exists msg; (split; [|exact Hn]).
    + apply in_rev. exact Hin.
    + apply in_rev in Hin. exact Hin.
Qed.

Lemma lower_char_idem (c : ascii) : lower_char (lower_char c) = lower_char c.
Proof.
  destruct c as [[] [] [] [] [] [] [] []]; reflexivity.
Qed.

Lemma str_lower_idem (s : str) : str_lower (str_lower s) = str_lower s.
Proof.
  unfold str_lower. rewrite map_map. apply map_ext. apply lower_char_idem.
Qed.

Lemma keyword_matches_lower (keyword : str) (e : Email) :
  keyword_matches (str_lower keyword) e = keyword_matches keyword e.
Proof. unfold keyword_matches, lower_in. now rewrite str_lower_idem. Qed.

(** the keyword search ignores the case of the keyword. *)
Theorem search_emails_ignores_case (mailbox : list Message) (keyword : str) :
  search_emails mailbox (str_lower keyword) = search_emails mailbox keyword.
Proof.
  unfold search_emails. induction (rev mailbox) as [|msg msgs IH]; [reflexivity|].
  cbn [search_loop]. destruct (parse_email msg false) as [parsed|]; [|reflexivity].
  now rewrite keyword_matches_lower, IH.
Qed.

(** one message without a sender makes the whole keyword search fail,
    unless its subject or its body contains the keyword. *)
Theorem search_emails_fails_without_sender (mailbox : list Message) (keyword : str)
  (msg : Message)
  (Hin : In msg mailbox)
  (Hfrom : header_from msg = None)
  (Hsubject : forall s, header_subject msg = Some s ->
     contains (str_lower keyword)
       (str_lower (if is_empty s then lit "(No Subject)" else s)) = false)
  (Hbody : contains (str_lower keyword) (str_lower (strip (body_text msg))) = false) :
  search_emails mailbox keyword = None.
Proof.
  unfold search_emails. apply (search_loop_error keyword (rev mailbox) msg).
  - now apply in_rev in Hin.
  - destruct (parse_email msg false) as [parsed|] eqn:E; [|exact I].
    destruct (parse_email_some msg false parsed E) as (s & Hs & ->).
    unfold keyword_matches, lower_in. cbn [subject full_body from_].
    now rewrite (Hsubject s Hs), Hbody, Hfrom.
Qed.

End ImapFacts.

(** * The presentation layers *)

Module AppFacts.
Import Py PyStr PyFacts Shape CleanFacts CleanMore ImapFacts SearchMore Log SemanticSearch Imap App.

Lemma some_inj {A : Type} (a b : A) : Some a = Some b -> a = b.
Proof. now intros [=]. Qed.

Lemma strip_nil_or_head (s : str) : strip s = [] \/ exists c r, strip s = c :: r /\ is_space c = false.
Proof.
  pose proof (strip_head s) as H. destruct (strip s) as [|c r]; [now left|].
  right. now exists c, r.
Qed.

(** A line cut to 97 characters and the ellipsis has no whitespace at its
    ends when the line had none. *)
Lemma cut_line_stripped (line : str) :
  strip line = line -> (100 < length line)%nat ->
  strip (firstn 97 line ++ lit "...") = firstn 97 line ++ lit "...".
Proof.
  intros Hs Hl. unfold strip. rewrite lstrip_fixed.
  - apply rstrip_app_fixed; [discriminate | reflexivity].
  - destruct line as [|c l]; [cbn in Hl; lia|]. cbn [firstn app head_space].
    pose proof (strip_head (c :: l)) as H. rewrite Hs in H. exact H.
Qed.

(** a summary is never blank: it has at least four characters and no
    whitespace at its ends. *)
Theorem summary_not_blank (email_ : Email) (summary : str)
  (Hsum : generate_email_summary email_ = Some summary) :
  (4 <= length summary)%nat /\ strip summary = summary.
Proof.
  unfold generate_email_summary in Hsum.
  destruct (subject email_) as [sub|]; [|discriminate].
  destruct (body email_) as [bod|]; [|discriminate].
  apply some_inj in Hsum. subst summary.
  match goal with |- context [if ?c then strip sub else _] => destruct c eqn:E1 end.
  - apply andb_true_iff in E1. destruct E1 as [_ E1]. apply Nat.ltb_lt in E1.
    split; [lia | apply strip_fixed].
  - destruct (negb (is_empty bod)); [|split; [cbn; lia | reflexivity]]. cbv zeta.
    destruct (find _ _) as [line|] eqn:Ef; [|split; [cbn; lia | reflexivity]].
    apply find_some in Ef. destruct Ef as [Hin Hp].
    apply in_map_iff in Hin. destruct Hin as (raw & <- & _).
    apply andb_true_iff in Hp. destruct Hp as [_ Hp]. apply Nat.ltb_lt in Hp.
    destruct (Nat.ltb_spec 100 (length (strip raw))) as [Hlong|Hshort].
    + split.
      * rewrite length_app, length_firstn. cbn [length lit list_ascii_of_string]. lia.
      * apply cut_line_stripped; [apply strip_fixed | exact Hlong].
    + split; [lia | apply strip_fixed].
Qed.

(** a summary is the stripped subject, or it has at most 100 characters
    (a line of the body, cut with an ellipsis when longer, or the fixed
    text for no preview). *)
Theorem summary_subject_or_short (email_ : Email) (summary : str)
  (Hsum : generate_email_summary email_ = Some summary) :
  (exists sub, subject email_ = Some sub /\ summary = strip sub /\ sub <> lit "(No Subject)") \/
  (10 < length summary <= 100)%nat.
Proof.
  unfold generate_email_summary in Hsum.
  destruct (subject email_) as [sub|]; [|discriminate].
  destruct (body email_) as [bod|]; [|discriminate].
  apply some_inj in Hsum. subst summary.
  match goal with |- context [if ?c then strip sub else _] => destruct c eqn:E1 end.
  - left. exists sub. repeat split. intros ->.
    rewrite !andb_true_iff in E1. destruct E1 as [[_ E1] _]. discriminate.
  - right. destruct (negb (is_empty bod)); [|cbn; lia]. cbv zeta.
    destruct (find _ _) as [line|] eqn:Ef; [|cbn; lia].
    apply find_some in Ef. destruct Ef as [_ Hp].
    apply andb_true_iff in Hp. destruct Hp as [_ Hp]. apply Nat.ltb_lt in Hp.
    destruct (Nat.ltb_spec 100 (length line)) as [Hlong|Hshort]; [|lia].
    rewrite length_app, length_firstn. cbn [length lit list_ascii_of_string]. lia.
Qed.

(** Every email that [parse_email] builds has a summary. *)
Lemma parsed_email_has_summary (msg : Message) (full : bool) (parsed : Email) :
  parse_email msg full = Some parsed ->
  exists summary, generate_email_summary parsed = Some summary.
Proof.
  intros H. destruct (parse_email_some msg full parsed H) as (s & _ & ->).
  unfold generate_email_summary. cbn [subject body]. eauto.
Qed.

(** ** Scores and thresholds *)

Lemma half_not_nan : not_nan 0.5%float /\ not_nan 0.3%float /\ not_nan 0.1%float.
Proof. repeat split; reflexivity. Qed.

Lemma very_low_below (score : float) :
  score_category score = VeryLow -> (0.1 <=? score)%float = false.
Proof.
  unfold score_category, geb.
  destruct (0.5 <=? score)%float; [discriminate|].
  destruct (0.3 <=? score)%float; [discriminate|].
  destruct (0.1 <=? score)%float; [discriminate | reflexivity].
Qed.

(** a score is in the lowest category exactly when it does not reach
    0.1; in particular a score that is NaN is. *)
Theorem very_low_iff_below_tenth (score : float) :
  (score_category score = VeryLow <-> geb score 0.1 = false) /\
  (is_nan score = true -> score_category score = VeryLow).
Proof.
  assert (H : score_category score = VeryLow <-> geb score 0.1 = false).
  { split; [apply very_low_below|]. unfold score_category, geb.
    intros Hlow.
      assert (H3 : (0.3 <=? score)%float = false).
      { destruct (0.3 <=? score)%float eqn:E; [|reflexivity].
        rewrite (leb_trans 0.1 0.3 score) in Hlow; [discriminate | reflexivity | exact E]. }
      assert (H5 : (0.5 <=? score)%float = false).
      { destruct (0.5 <=? score)%float eqn:E; [|reflexivity].
        rewrite (leb_trans 0.1 0.5 score) in Hlow; [discriminate | reflexivity | exact E]. }
      now rewrite H5, H3, Hlow. }
  split; [exact H|]. intros Hnan. apply H. unfold geb.
  rewrite leb_spec, (is_nan_true _ Hnan). apply SFcompare_nan_r || reflexivity.
Qed.

(** the categories follow the order of the scores: of two scores that
    are numbers, the greater is never in a lower category. *)
Theorem score_category_monotone (a b : float)
  (Hab : (a <=? b)%float = true) :
  match score_category a, score_category b with
  | High, (Medium | Low | VeryLow) => False
  | Medium, (Low | VeryLow) => False
  | Low, VeryLow => False
  | _, _ => True
  end.
Proof.
  unfold score_category, geb.
  destruct (0.5 <=? a)%float eqn:A5.
  { rewrite (leb_trans _ _ _ A5 Hab). exact I. }
  destruct (0.3 <=? a)%float eqn:A3.
  { rewrite (leb_trans _ _ _ A3 Hab). now destruct (0.5 <=? b)%float. }
  destruct (0.1 <=? a)%float eqn:A1.
  { rewrite (leb_trans _ _ _ A1 Hab).
    destruct (0.5 <=? b)%float; [exact I|]. now destruct (0.3 <=? b)%float. }
  destruct (0.5 <=? b)%float; [exact I|]. destruct (0.3 <=? b)%float; [exact I|].
  now destruct (0.1 <=? b)%float.
Qed.

(** the range test lets through exactly the thresholds from 0 to 1 and
    NaN. *)
Theorem threshold_in_range_iff (t : float) :
  threshold_out_of_range t = false <->
  is_nan t = true \/ ((0 <=? t)%float = true /\ (t <=? 1)%float = true).
Proof.
  unfold threshold_out_of_range. destruct (is_nan t) eqn:En.
  - rewrite !ltb_spec, (is_nan_true _ En). cbn. tauto.
  - rewrite (ltb_negb_leb t 0), (ltb_negb_leb 1 t) by (exact En || reflexivity).
    destruct (0 <=? t)%float, (t <=? 1)%float; cbn; intuition congruence.
Qed.

(** the command line never searches with a threshold out of range: a
    number outside 0..1, no input and unreadable input all give 0.1, and a
    number inside is kept. *)
Theorem cli_threshold_in_range (parsed : option float) :
  threshold_out_of_range (cli_threshold parsed) = false /\
  (forall t, parsed = Some t -> threshold_out_of_range t = false -> cli_threshold parsed = t).
Proof.
  split.
  - destruct parsed as [t|]; [|reflexivity]. cbn [cli_threshold].
    destruct (threshold_out_of_range t) eqn:E; [reflexivity | exact E].
  - intros t -> E. cbn [cli_threshold]. now rewrite E.
Qed.

Section Search.
Variable html_unescape : str -> str.
Variable self : SemanticSearchEngine.
Variable query : str.

(** with a threshold of at least 0.1, as the applications use, an entry
    of the lowest category is the whole result: it can only be the
    fallback. *)
Theorem very_low_entry_is_fallback (emails : list Email) (top_k : Z)
  (min_threshold : option float) (es : Scored)
  (Ht : (0.1 <=? resolve self min_threshold)%float = true)
  (Hin : In es (result_of
           (semantic_search html_unescape self query emails top_k min_threshold)))
  (Hlow : score_category (snd es) = VeryLow) :
  result_of (semantic_search html_unescape self query emails top_k min_threshold) = [es].
Proof.
  apply (below_threshold_fallback html_unescape self query emails top_k min_threshold es Hin).
  destruct (geb (snd es) (resolve self min_threshold)) eqn:E; [|reflexivity].
  unfold geb in E. pose proof (leb_trans _ _ _ Ht E) as H.
  rewrite (very_low_below _ Hlow) in H. discriminate.
Qed.

End Search.
End AppFacts.

(** * The process-wide engine *)

Module ProcessFacts.
Import Py Log SemanticSearch Process.

Lemma construct_cases (load : str -> option (str -> Np.ndarray)) (tried : list str) :
  (exists e, fst (construct load tried) = Some e /\
     similarity_threshold e = 0.1%float /\ load (model_name e) = Some (model e) /\
     (model_name e = lit "all-mpnet-base-v2" \/
      (model_name e = lit "all-MiniLM-L6-v2" /\ load (lit "all-mpnet-base-v2") = None))) \/
  (fst (construct load tried) = None /\
   load (lit "all-mpnet-base-v2") = None /\ load (lit "all-MiniLM-L6-v2") = None /\
   snd (construct load tried) = tried ++ [lit "all-mpnet-base-v2"; lit "all-MiniLM-L6-v2"]).
Proof.
  unfold construct.
  destruct (load (lit "all-mpnet-base-v2")) as [m|] eqn:E1.
  - left. eexists. split; [reflexivity|]. cbn. auto.
  - destruct (load (lit "all-MiniLM-L6-v2")) as [m|] eqn:E2.
    + left. eexists. split; [reflexivity|]. cbn. auto.
    + right. auto.
Qed.

(** the engine is constructed once: after a call that returned an
    engine, every later call returns the same engine and loads no model,
    whatever the loader would do. *)
Theorem engine_is_cached (load load' : str -> option (str -> Np.ndarray))
  (st st' : State) (e : SemanticSearchEngine)
  (Hfirst : get_semantic_engine load st = (Some e, st')) :
  semantic_engine st' = Some e /\
  get_semantic_engine load' st' = (Some e, st').
Proof.
  assert (H : semantic_engine st' = Some e).
  { unfold get_semantic_engine in Hfirst.
    destruct (semantic_engine st) as [e0|] eqn:Ec.
    - injection Hfirst as <- <-. exact Ec.
    - destruct (construct load (loads st)) as [[e1|] tried]; injection Hfirst as <- <-;
        reflexivity. }
  split; [exact H|]. unfold get_semantic_engine. now rewrite H.
Qed.

(** the engine that is constructed records the model that was loaded:
    its name is the preferred one, or the fallback when the preferred one
    could not be loaded, and its threshold is 0.1. *)
Theorem engine_records_loaded_model (load : str -> option (str -> Np.ndarray))
  (st st' : State) (e : SemanticSearchEngine)
  (Hempty : semantic_engine st = None)
  (Hget : get_semantic_engine load st = (Some e, st')) :
  similarity_threshold e = 0.1%float /\
  load (model_name e) = Some (model e) /\
  (model_name e = lit "all-mpnet-base-v2" \/
   (model_name e = lit "all-MiniLM-L6-v2" /\ load (lit "all-mpnet-base-v2") = None)).
Proof.
  unfold get_semantic_engine in Hget. rewrite Hempty in Hget.
  destruct (construct_cases load (loads st)) as [(e1 & E & H)|[E _]];
    destruct (construct load (loads st)) as [[e2|] tried]; cbn [fst] in E;
    try discriminate; injection Hget as <- <-.
  injection E as ->. exact H.
Qed.

(** a construction that fails is not remembered: both models were
    tried, the global stays unset, and the next call constructs again. *)
Theorem failed_construction_is_retried (load load' : str -> option (str -> Np.ndarray))
  (st st' : State)
  (Hget : get_semantic_engine load st = (None, st')) :
  semantic_engine st' = None /\
  loads st' = loads st ++ [lit "all-mpnet-base-v2"; lit "all-MiniLM-L6-v2"] /\
  forall m, load' (lit "all-mpnet-base-v2") = Some m ->
    fst (get_semantic_engine load' st') =
    Some (mk_engine m (lit "all-mpnet-base-v2") 0.1%float).
Proof.
  unfold get_semantic_engine in Hget.
  destruct (semantic_engine st) as [e0|]; [discriminate|].
  destruct (construct_cases load (loads st)) as [(e1 & E & _)|(E & _ & _ & L)];
    destruct (construct load (loads st)) as [[e2|] tried]; cbn [fst snd] in *;
    try discriminate; injection Hget as <-.
  repeat split; [exact L|].
  intros m Hm. unfold get_semantic_engine, construct. cbn [semantic_engine]. now rewrite Hm.
Qed.

Section Convenience.
Variable html_unescape : str -> str.
Variable load : str -> option (str -> Np.ndarray).

(** the two convenience functions agree: [semantic_search_emails]
    returns the emails of [semantic_search_with_scores], in the same order,
    fails when it fails and leaves the same state; on an empty mailbox both
    return the empty list without constructing the engine. *)
Theorem convenience_functions_agree (emails : list Email) (query : str) (top_k : Z)
  (min_threshold : option float) (st : State) :
  semantic_search_emails html_unescape load emails query top_k min_threshold st =
  (option_map (map fst)
     (fst (semantic_search_with_scores html_unescape load emails query top_k
             min_threshold st)),
   snd (semantic_search_with_scores html_unescape load emails query top_k
          min_threshold st)) /\
  semantic_search_with_scores html_unescape load [] query top_k min_threshold st =
  (Some [], st).
Proof.
  split; [|reflexivity].
  unfold semantic_search_emails, semantic_search_with_scores.
  destruct emails as [|e emails]; [reflexivity|].
  destruct (get_semantic_engine load st) as [[engine|] st']; reflexivity.
Qed.

End Convenience.
End ProcessFacts.

(** * The properties above on concrete inputs *)

Module Instances.
Import Py PyStr PyFacts Log SemanticSearch Imap App Process Sample SampleMail.
Import Cleaning SearchMore CleanMore ImapFacts AppFacts ProcessFacts.

(** A search for one result on a corpus of four. *)
Lemma at_least_one_result_witness :
  mixed_corpus <> [] /\ (1 <= 1)%Z /\
  map fst (result_of (semantic_search unescape engine (lit "a") mixed_corpus 1 None)) =
    [mail "a" "y"] /\
  (result_of (semantic_search unescape engine (lit "a") mixed_corpus 1 None) = [] -> False).
Proof.
  split; [discriminate|]. split; [lia|]. split; [vm_compute; reflexivity|].
  apply (at_least_one_result unescape engine (lit "a") mixed_corpus 1 None);
    [discriminate | lia].
Defined.

(** Three documents reach the default threshold; two are asked for. *)
Lemma thresholded_result_length_witness :
  length (thresholded unescape engine (lit "a") mixed_corpus (resolve engine None)) = 3 /\
  Z.of_nat (length (result_of
     (semantic_search unescape engine (lit "a") mixed_corpus 2 None))) =
  Z.min 2 (Z.of_nat (length (thresholded unescape engine (lit "a") mixed_corpus
                               (resolve engine None)))).
Proof.
  split; [vm_compute; reflexivity|].
  apply (thresholded_result_length unescape engine (lit "a") mixed_corpus 2 None);
    [vm_compute; discriminate | lia].
Defined.

(** The fallback entry of a corpus whose best score is about 0.707. *)
Lemma entry_below_threshold_is_fallback_witness :
  result_of (semantic_search unescape engine (lit "a") low_corpus 5 (Some 0.9%float)) =
    [(mail "b: budget" "numbers",
      score unescape engine (lit "a") (mail "b: budget" "numbers"))] /\
  thresholded unescape engine (lit "a") low_corpus (resolve engine (Some 0.9%float)) = [].
Proof.
  apply (entry_below_threshold_is_fallback unescape engine (lit "a") low_corpus 5
           (Some 0.9%float)).
  - vm_compute. left. reflexivity.
  - vm_compute. reflexivity.
Defined.

(** A search with the threshold NaN. *)
Lemma nan_threshold_always_falls_back_witness :
  thresholded unescape engine (lit "a") mixed_corpus nan = [] /\
  length (result_of (semantic_search unescape engine (lit "a") mixed_corpus 5 (Some nan))) = 1.
Proof.
  apply (nan_threshold_always_falls_back unescape engine (lit "a") mixed_corpus 5 nan);
    [discriminate | reflexivity].
Defined.

(** With the threshold 0 the document of score 0 qualifies, and is left
    out all the same. *)
Lemma search_with_threshold_keeps_default_witness :
  geb (score unescape engine (lit "a") (mail "c" "w")) 0 = true /\
  map fst (result_of (search_with_threshold unescape engine (lit "a") mixed_corpus 0 10)) =
    [mail "a" "y"; mail "b first" "x"; mail "b second" "z"] /\
  geb (score unescape engine (lit "a") (mail "a" "y")) (similarity_threshold engine) = true /\
  geb (score unescape engine (lit "a") (mail "a" "y")) 0 = true.
Proof.
  split; [vm_compute; reflexivity|]. split; [vm_compute; reflexivity|].
  apply (search_with_threshold_keeps_default unescape engine (lit "a") mixed_corpus 0 10
           (mail "a" "y", score unescape engine (lit "a") (mail "a" "y"))).
  - vm_compute. discriminate.
  - vm_compute. left. reflexivity.
Defined.

(** A body of spaces, a tab and line breaks. *)
Lemma clean_email_body_blank_witness :
  clean_email_body unescape [" "; "009"; "010"; "013"; " "]%char = [].
Proof.
  apply (clean_email_body_blank unescape unescape_plain). reflexivity.
Defined.

(** Of a body of 251 characters after stripping, the preview keeps 200. *)
Lemma parse_email_bodies_witness :
  length (strip (body_text report)) = 251 /\
  match parse_email report false with
  | Some parsed =>
      exists preview whole,
        body parsed = Some preview /\ full_body parsed = Some whole /\
        whole = strip (body_text report) /\ strip whole = whole /\
        preview = firstn 200 whole /\ length preview <= 200
  | None => False
  end.
Proof.
  split; [vm_compute; reflexivity|].
  destruct (parse_email report false) as [parsed|] eqn:E.
  - exact (parse_email_bodies report false parsed E).
  - vm_compute in E. discriminate E.
Defined.

(** A mailbox of two messages, listed newest first. *)
Lemma fetched_emails_embed_full_body_witness :
  fetch_all_emails [invoice; lunch] = Some [lunch_email; invoice_email] /\
  Forall2 (fun msg e =>
             exists whole, parse_email msg true = Some whole /\
               combined_text unescape e = combined_text unescape whole /\
               score unescape engine (lit "a") e = score unescape engine (lit "a") whole)
          [lunch; invoice] [lunch_email; invoice_email].
Proof.
  split; [vm_compute; reflexivity|].
  apply (fetched_emails_embed_full_body unescape engine (lit "a") [invoice; lunch]).
  vm_compute; reflexivity.
Defined.

(** The message with an empty subject and an empty body is embedded
    under the literal subject, not under the placeholder for empty
    content. *)
Lemma parsed_email_never_placeholder_witness :
  exists parsed, parse_email hollow false = Some parsed /\
    subject parsed = Some (lit "(No Subject)") /\
    strip (lit "(No Subject)") <> [] /\
    combined_text unescape parsed = lit "(No Subject) (No Subject) ".
Proof.
  apply (parsed_email_never_placeholder unescape hollow false []);
    [reflexivity | left; reflexivity].
Defined.

(** A message without Subject header makes the listing raise, and the
    keyword search with it. *)
Lemma untitled_message_raises :
  parse_email untitled false = None /\
  fetch_all_emails [invoice; untitled] = None /\
  search_emails [invoice; untitled] (lit "invoice") = None /\
  search_emails [invoice; untitled] [] = None.
Proof. repeat split. Qed.

(** A keyword search whose two messages have a sender and a date. *)
Lemma search_emails_is_filtered_fetch_witness :
  search_emails [invoice; receipt] (lit "INVOICE") = Some [invoice_email] /\
  exists emails, fetch_all_emails [invoice; receipt] = Some emails /\
    [invoice_email] =
    filter (fun e => match keyword_matches (lit "INVOICE") e with
                     | Some true => true
                     | _ => false
                     end) emails.
Proof.
  split; [vm_compute; reflexivity|].
  apply (search_emails_is_filtered_fetch [invoice; receipt] (lit "INVOICE")).
  vm_compute; reflexivity.
Defined.

(** The message without sender stops the search for a word it does not
    contain, though another message contains the word. *)
Lemma search_emails_fails_without_sender_witness :
  search_emails [invoice; lunch] (lit "invoice") = None /\
  search_emails [invoice; lunch] (lit "lunch") = Some [lunch_email].
Proof.
  split; [|vm_compute; reflexivity].
  apply (search_emails_fails_without_sender [invoice; lunch] (lit "invoice") lunch).
  - right. left. reflexivity.
  - reflexivity.
  - intros s [= <-]. vm_compute; reflexivity.
  - vm_compute; reflexivity.
Defined.

(** A summary taken from the body: the first line of more than ten
    characters. *)
Lemma summary_not_blank_witness :
  generate_email_summary (mail "Hi" "short
   This line is long enough.
next") = Some (lit "This line is long enough.") /\
  (4 <= length (lit "This line is long enough."))%nat /\
  strip (lit "This line is long enough.") = lit "This line is long enough.".
Proof.
  split; [vm_compute; reflexivity|].
  apply (summary_not_blank (mail "Hi" "short
   This line is long enough.
next")).
  vm_compute; reflexivity.
Defined.

(** A summary taken from the subject, which may be of any length. *)
Lemma summary_subject_or_short_witness :
  (exists sub,
     subject invoice_email = Some sub /\
     lit "Invoice due" = strip sub /\ sub <> lit "(No Subject)") \/
  (10 < length (lit "Invoice due") <= 100)%nat.
Proof.
  apply (summary_subject_or_short invoice_email). vm_compute; reflexivity.
Defined.

(** Two scores in order and their categories. *)
Lemma score_category_monotone_witness :
  score_category 0.2 = Low /\ score_category 0.4 = Medium /\
  match score_category 0.2, score_category 0.4 with
  | High, (Medium | Low | VeryLow) => False
  | Medium, (Low | VeryLow) => False
  | Low, VeryLow => False
  | _, _ => True
  end.
Proof.
  split; [reflexivity|]. split; [reflexivity|].
  apply (score_category_monotone 0.2 0.4). reflexivity.
Defined.

(** The fallback entry of a corpus whose only score is 0. *)
Lemma very_low_entry_is_fallback_witness :
  score_category (score unescape engine (lit "a") (mail "c" "w")) = VeryLow /\
  result_of (semantic_search unescape engine (lit "a") [mail "c" "w"; mail "c" "v"] 5 None) =
  [(mail "c" "w", score unescape engine (lit "a") (mail "c" "w"))].
Proof.
  split; [vm_compute; reflexivity|].
  apply (very_low_entry_is_fallback unescape engine (lit "a") [mail "c" "w"; mail "c" "v"]
           5 None).
  - vm_compute; reflexivity.
  - vm_compute. left. reflexivity.
  - vm_compute; reflexivity.
Defined.

(** A second call after a first that loaded the preferred model, with a
    loader that would fail. *)
Lemma engine_is_cached_witness :
  let e := mk_engine first_letter_model (lit "all-mpnet-base-v2") 0.1%float in
  let st' := mk_state (Some e) [lit "all-mpnet-base-v2"] in
  get_semantic_engine load_any (mk_state None []) = (Some e, st') /\
  semantic_engine st' = Some e /\
  get_semantic_engine load_none st' = (Some e, st').
Proof.
  split; [reflexivity|].
  apply (engine_is_cached load_any load_none (mk_state None [])). reflexivity.
Defined.

(** The engine of a process in which only the fallback model loads. *)
Lemma engine_records_loaded_model_witness :
  let e := mk_engine first_letter_model (lit "all-MiniLM-L6-v2") 0.1%float in
  similarity_threshold e = 0.1%float /\
  load_fallback_only (model_name e) = Some (model e) /\
  (model_name e = lit "all-mpnet-base-v2" \/
   (model_name e = lit "all-MiniLM-L6-v2" /\
    load_fallback_only (lit "all-mpnet-base-v2") = None)).
Proof.
  apply (engine_records_loaded_model load_fallback_only (mk_state None [])
           (mk_state (Some (mk_engine first_letter_model (lit "all-MiniLM-L6-v2") 0.1%float))
              [lit "all-mpnet-base-v2"; lit "all-MiniLM-L6-v2"]));
    reflexivity.
Defined.

(** A first call in which no model loads, then a call in which one does. *)
Lemma failed_construction_is_retried_witness :
  let st' := mk_state None [lit "all-mpnet-base-v2"; lit "all-MiniLM-L6-v2"] in
  semantic_engine st' = None /\
  loads st' = [] ++ [lit "all-mpnet-base-v2"; lit "all-MiniLM-L6-v2"] /\
  forall m, load_any (lit "all-mpnet-base-v2") = Some m ->
    fst (get_semantic_engine load_any st') =
    Some (mk_engine m (lit "all-mpnet-base-v2") 0.1%float).
Proof.
  apply (failed_construction_is_retried load_none load_any (mk_state None [])).
  reflexivity.
Defined.

End Instances.
